(** * MapReduce word count: a shallow embedding of [main.cpp]

    The development follows the source file top-down:

    - the character classes of [<cctype>] and the machine integers,
    - [map_function] (stream extraction, punctuation removal, lower-casing),
    - [reduce_function] ([std::accumulate] on [int]),
    - [std::map] as a key-ordered association list,
    - [map_worker], both as the sequential function and as the atomic steps
      a thread takes when it runs next to other threads,
    - [main]: partitioning, thread spawning, join, reduce phase, report.

    Theorems come after all the definitions. *)

From Stdlib Require Import ZArith List String Ascii Bool Lia Permutation.
From Stdlib Require Import Sorting.Sorted Structures.OrderedTypeEx.
From Stdlib Require Import Numbers.DecimalString.
Import ListNotations.

Local Open Scope string_scope.
Local Open Scope Z_scope.

(* ================================================================== *)
(** ** Machine integers *)

Module MachInt.

Definition INT_MAX : Z := 2 ^ 31 - 1.
Definition INT_MIN : Z := - 2 ^ 31.

(** Conversion to [int]: two's complement, 32 bits. *)
Definition to_int (z : Z) : Z := (z + 2 ^ 31) mod 2 ^ 32 - 2 ^ 31.

(** Conversion to [unsigned long] (and [size_t]): 64 bits. *)
Definition to_ulong (z : Z) : Z := z mod 2 ^ 64.

Definition is_int (z : Z) : Prop := INT_MIN <= z <= INT_MAX.

End MachInt.
Import MachInt.

(* ================================================================== *)
(** ** Character classes ([<cctype>], default "C" locale)

    A [char] is one byte.  Bytes from 128 up belong to no class and are
    left alone by [tolower]. *)

Module CType.

Definition code (c : ascii) : N := N_of_ascii c.

Definition between (lo hi : N) (c : ascii) : bool :=
  ((lo <=? code c) && (code c <=? hi))%N.

(** space, [\t], [\n], [\v], [\f], [\r] *)
Definition isspace (c : ascii) : bool :=
  between 9 13 c || (code c =? 32)%N.

(** the printable characters that are neither alphanumeric nor space *)
Definition ispunct (c : ascii) : bool :=
  between 33 47 c || between 58 64 c || between 91 96 c || between 123 126 c.

Definition isupper (c : ascii) : bool := between 65 90 c.

Definition tolower (c : ascii) : ascii :=
  if isupper c then ascii_of_N (code c + 32) else c.

End CType.
Import CType.

(* ================================================================== *)
(** ** [map_function] *)

(** [std::remove_if] followed by [erase]: the characters that do not
    satisfy [p], in order. *)
Fixpoint remove_if (p : ascii -> bool) (s : string) : string :=
  match s with
  | EmptyString => EmptyString
  | String c s' => if p c then remove_if p s' else String c (remove_if p s')
  end.

(** [std::transform] of a string onto itself. *)
Fixpoint transform (f : ascii -> ascii) (s : string) : string :=
  match s with
  | EmptyString => EmptyString
  | String c s' => String (f c) (transform f s')
  end.

(** [iss >> word] first skips leading whitespace ... *)
Fixpoint skipws (iss : string) : string :=
  match iss with
  | EmptyString => EmptyString
  | String c rest => if isspace c then skipws rest else iss
  end.

(** ... then takes characters up to the next whitespace or the end of
    the stream.  The result is the word and what is left of the stream. *)
Fixpoint read_word (iss : string) : string * string :=
  match iss with
  | EmptyString => (EmptyString, EmptyString)
  | String c rest =>
      if isspace c then (EmptyString, iss)
      else let (w, r) := read_word rest in (String c w, r)
  end.

(** The extraction fails (the stream converts to [false]) when no
    character could be taken. *)
Definition extract (iss : string) : option (string * string) :=
  match read_word (skipws iss) with
  | (EmptyString, _) => None
  | (w, r) => Some (w, r)
  end.

(** The [while (iss >> word)] loop.  [fuel] bounds the number of
    iterations; [map_function] supplies more than the loop can use. *)
Fixpoint map_loop (fuel : nat) (iss : string) (result : list (string * Z))
  : list (string * Z) :=
  match fuel with
  | O => result
  | S fuel' =>
      match extract iss with
      | None => result
      | Some (word, iss') =>
          let word := remove_if ispunct word in
          let word := transform tolower word in
          map_loop fuel' iss' (result ++ [(word, 1)])
      end
  end.

Definition map_function (input : string) : list (string * Z) :=
  map_loop (S (String.length input)) input [].

(* ================================================================== *)
(** ** [reduce_function] *)

(** [std::accumulate(values.begin(), values.end(), 0)]: the running sum
    is an [int]. *)
Definition reduce_function (values : list Z) : Z :=
  fold_left (fun acc x => to_int (acc + x)) values 0.

(* ================================================================== *)
(** ** [std::map<std::string, V>]

    The entries in key order, keys compared as [std::string] compares
    them (byte-wise, as unsigned values): [String.compare]. *)

Module StdMap.

Definition key_lt (a b : string) : Prop := String.compare a b = Lt.

Section Ops.
Context {V : Type}.

Definition t : Type := list (string * V).

Definition empty : t := [].

Fixpoint find (k : string) (m : t) : option V :=
  match m with
  | [] => None
  | (k', v) :: m' =>
      match String.compare k k' with
      | Lt => None
      | Eq => Some v
      | Gt => find k m'
      end
  end.

(** [f(m[k])]: [operator[]] inserts a default-constructed value
    when the key is absent, and the caller then updates the
    referenced value in place. *)
Fixpoint modify (k : string) (dflt : V) (f : V -> V) (m : t) : t :=
  match m with
  | [] => [(k, f dflt)]
  | (k', v) :: m' =>
      match String.compare k k' with
      | Lt => (k, f dflt) :: m
      | Eq => (k', f v) :: m'
      | Gt => (k', v) :: modify k dflt f m'
      end
  end.

(** The value under [k], or [dflt] when there is none. *)
Definition get (dflt : V) (k : string) (m : t) : V :=
  match find k m with Some v => v | None => dflt end.

Definition keys (m : t) : list string := List.map fst m.

(** The representation invariant: keys strictly ascending. *)
Definition ordered (m : t) : Prop := Sorted key_lt (keys m).

End Ops.

Arguments t : clear implicits.

End StdMap.

(** [intermediate_result]: word -> [std::vector<int>]. *)
Definition imap : Type := StdMap.t (list Z).

(** [final_result]: word -> [int]. *)
Definition fmap : Type := StdMap.t Z.

(** [intermediate_result[pair.first].push_back(pair.second)] *)
Definition push_back_at (p : string * Z) (m : imap) : imap :=
  StdMap.modify (fst p) [] (fun v => (v ++ [snd p])%list) m.

(** [final_result[k] = x] *)
Definition assign (k : string) (x : Z) (m : fmap) : fmap :=
  StdMap.modify k 0 (fun _ => x) m.

(** The inner loop of [map_worker] run to its end. *)
Definition merge_all (pairs : list (string * Z)) (m : imap) : imap :=
  fold_left (fun m p => push_back_at p m) pairs m.

(* ================================================================== *)
(** ** [map_worker] *)

(** How a call can end.  [Aborts] is a failure the code itself
    detects and raises (a failed assertion, a throwing accessor such
    as [at]); nothing in this program does.  [Undefined] marks an
    operation to which C++ gives no meaning, here an access out of
    range through [operator[]]: the source then determines nothing
    about the run, which may go on with whatever lies in memory, crash,
    or be ended by an exception thrown further on. *)
Inductive outcome (A : Type) : Type :=
| Returns (a : A)
| Aborts
| Undefined.
Arguments Returns {A} a.
Arguments Aborts {A}.
Arguments Undefined {A}.

(** [v.size()] *)
Definition size {A} (v : list A) : Z := Z.of_nat (List.length v).

(** [v[i]] with [i] an [int]: the index is converted to [size_type];
    [operator[]] does not check it, and an index that is not below
    [v.size()] has no defined result. *)
Definition vector_at {A} (v : list A) (i : Z) : outcome A :=
  let n := to_ulong i in
  if n <? size v then
    match nth_error v (Z.to_nat n) with
    | Some x => Returns x
    | None => Undefined
    end
  else Undefined.

(** The outer loop [for (int i = start; i < end; ++i)].  [fuel] bounds
    the number of iterations; [map_worker] supplies [end - start], the
    number of times the test [i < end] can succeed. *)
Fixpoint worker_loop (input_data : list string) (fuel : nat) (i end_ : Z)
  (m : imap) : outcome imap :=
  match fuel with
  | O => Returns m
  | S fuel' =>
      if i <? end_ then
        match vector_at input_data i with
        | Returns s =>
            worker_loop input_data fuel' (to_int (i + 1)) end_
              (merge_all (map_function s) m)
        | Aborts => Aborts
        | Undefined => Undefined
        end
      else Returns m
  end.

Definition map_worker (input_data : list string) (intermediate_result : imap)
  (start end_ : Z) : outcome imap :=
  worker_loop input_data (Z.to_nat (end_ - start)) start end_ intermediate_result.

(** *** The worker as a thread

    Next to other threads the worker's effect on the shared map is a
    sequence of atomic appends (each one under [reduceMutex]); between
    them it only touches its own variables: the loop counter and the
    part of [mapped_result] not yet pushed.

    A thread takes two kinds of steps.  With pairs pending it pushes
    the first one.  With none pending it is at the head of the outer
    loop: it tests [i < end], reads [input_data[i]] and calls
    [map_function]; the [++i] that the source does after the inner
    loop touches no shared state and is done in the same step, so
    [th_i] is the index the next test will see. *)
Record thread : Type := mkThread {
  th_i : Z;                          (* the loop counter [i] *)
  th_end : Z;                        (* the parameter [end] *)
  th_pending : list (string * Z)     (* rest of [mapped_result] *)
}.

Inductive step_result : Type :=
| Finished
| Crashed
| Next (th : thread) (m : imap).

Definition thread_step (input_data : list string) (th : thread) (m : imap)
  : step_result :=
  match th_pending th with
  | p :: rest =>
      Next (mkThread (th_i th) (th_end th) rest) (push_back_at p m)
  | [] =>
      if th_i th <? th_end th then
        match vector_at input_data (th_i th) with
        | Returns s =>
            Next (mkThread (to_int (th_i th + 1)) (th_end th) (map_function s)) m
        | _ => Crashed
        end
      else Finished
  end.

Definition finished (th : thread) : bool :=
  match th_pending th with
  | [] => negb (th_i th <? th_end th)
  | _ :: _ => false
  end.

(** The threads and the map they share. *)
Definition state : Type := list thread * imap.

Fixpoint set_nth {A} (k : nat) (x : A) (l : list A) : list A :=
  match l, k with
  | [], _ => []
  | _ :: l', O => x :: l'
  | y :: l', S k' => y :: set_nth k' x l'
  end.

(** Thread number [k] takes its next step; [None] when there is no
    such thread or it cannot step. *)
Definition sys_step (input_data : list string) (k : nat) (st : state)
  : option state :=
  match nth_error (fst st) k with
  | None => None
  | Some th =>
      match thread_step input_data th (snd st) with
      | Next th' m' => Some (set_nth k th' (fst st), m')
      | _ => None
      end
  end.

(** A schedule names the thread that moves at each step; every
    interleaving of the threads is the run of some schedule. *)
Fixpoint run (input_data : list string) (sched : list nat) (st : state)
  : option state :=
  match sched with
  | [] => Some st
  | k :: sched' =>
      match sys_step input_data k st with
      | None => None
      | Some st' => run input_data sched' st'
      end
  end.

(* ================================================================== *)
(** ** [main] *)

(** The bounds computed in the body of the spawning loop, both
    [unsigned long]; [i] and [num_threads] are [int]s converted for
    the arithmetic. *)
Definition range_start (sz num_threads i : Z) : Z :=
  to_ulong (to_ulong i * (sz / to_ulong num_threads)).

Definition range_end (sz num_threads i : Z) : Z :=
  if i =? num_threads - 1 then sz
  else to_ulong (to_ulong (i + 1) * (sz / to_ulong num_threads)).

(** The values [i] takes in [for (int i = 0; i < num_threads; ++i)]. *)
Definition loop_indices (num_threads : Z) : list Z :=
  List.map Z.of_nat (seq 0 (Z.to_nat num_threads)).

(** The range handed to thread [i]. *)
Definition range_of (sz num_threads i : Z) : Z * Z :=
  (range_start sz num_threads i, range_end sz num_threads i).

Definition ranges (sz num_threads : Z) : list (Z * Z) :=
  List.map (range_of sz num_threads) (loop_indices num_threads).

(** [map_worker] takes [int start, int end]. *)
Definition spawn (r : Z * Z) : thread :=
  mkThread (to_int (fst r)) (to_int (snd r)) [].

(** [const int num_threads = std::thread::hardware_concurrency();] *)
Definition num_threads_of (hardware_concurrency : Z) : Z :=
  to_int hardware_concurrency.

Definition map_threads (input_data : list string) (hardware_concurrency : Z)
  : list thread :=
  List.map spawn (ranges (size input_data) (num_threads_of hardware_concurrency)).

Definition initial (input_data : list string) (hardware_concurrency : Z) : state :=
  (map_threads input_data hardware_concurrency, StdMap.empty).

(** The reduce phase: one assignment per entry, in key order. *)
Definition reduce_phase (intermediate_result : imap) : fmap :=
  fold_left (fun fr entry => assign (fst entry) (reduce_function (snd entry)) fr)
    intermediate_result StdMap.empty.

(** [operator<<] on an [int]: decimal digits, a sign when negative. *)
Definition show_int (z : Z) : string := NilZero.string_of_int (Z.to_int z).

Definition endl : string := String (ascii_of_nat 10) EmptyString.

Definition print_entry (result : string * Z) : string :=
  fst result ++ ": " ++ show_int (snd result) ++ endl.

Definition report (final_result : fmap) : string :=
  String.concat EmptyString (List.map print_entry final_result).

Record exit : Type := mkExit { stdout : string; exit_code : Z }.

(** [final_result] under a schedule of the threads: the map [main]
    builds when the schedule runs every thread to its end (the joins
    return), [None] when the schedule is not one of a complete run. *)
Definition final_result (input_data : list string) (hardware_concurrency : Z)
  (sched : list nat) : option fmap :=
  match run input_data sched (initial input_data hardware_concurrency) with
  | Some (ths, m) => if forallb finished ths then Some (reduce_phase m) else None
  | None => None
  end.

(** [main]: what it prints and returns. *)
Definition main (input_data : list string) (hardware_concurrency : Z)
  (sched : list nat) : option exit :=
  match final_result input_data hardware_concurrency sched with
  | Some fr => Some (mkExit (report fr) 0)
  | None => None
  end.

(** The corpus of the source. *)
Definition sample_input : list string :=
  [ "This is sentence one.";
    "This is sentence two.";
    "This is a sentence that ends with red.";
    "This is a sentence that ends with blue." ].

(* ================================================================== *)
(** ** The specification's vocabulary

    Definitions that follow the words of the specification rather than
    the code; the theorems below compare the two. *)

Module Spec.

(** Splitting a record on whitespace: [cur] is the token being read. *)
Fixpoint split_ws (cur : string) (s : string) : list string :=
  match s with
  | EmptyString =>
      match cur with EmptyString => [] | _ => [cur] end
  | String c s' =>
      if isspace c then
        match cur with
        | EmptyString => split_ws EmptyString s'
        | _ => cur :: split_ws EmptyString s'
        end
      else split_ws (cur ++ String c EmptyString) s'
  end.

Definition tokens (record : string) : list string := split_ws EmptyString record.

(** Punctuation stripped, the remainder in lower case. *)
Definition normalize (token : string) : string :=
  string_of_list_ascii
    (List.map tolower
       (List.filter (fun c => negb (ispunct c)) (list_ascii_of_string token))).

Definition nonempty (w : string) : bool :=
  match w with EmptyString => false | _ => true end.

(** The Mapper of the specification: a pair only for a non-empty
    remainder. *)
Definition mapper (record : string) : list (string * Z) :=
  List.map (fun w => (w, 1))
    (List.filter nonempty (List.map normalize (tokens record))).

(** The normalised tokens of the whole corpus, record after record. *)
Definition words (corpus : list string) : list string :=
  List.map normalize (flat_map tokens corpus).

(** The number of occurrences of [w] in the corpus. *)
Definition occurrences (w : string) (corpus : list string) : nat :=
  count_occ string_dec (words corpus) w.

(** A total is stored under [w] exactly when [w] occurs. *)
Definition total (w : string) (corpus : list string) : option Z :=
  match occurrences w corpus with
  | O => None
  | n => Some (Z.of_nat n)
  end.

End Spec.

(* ================================================================== *)
(** ** Notions used in the statements and their proofs *)

Definition opt_token (w : string) : list string :=
  match w with EmptyString => [] | _ => [w] end.

Definition emit (token : string) : string * Z := (Spec.normalize token, 1).

(** The counts pushed for [w] by a sequence of pairs, in order. *)
Definition values_of (w : string) (pairs : list (string * Z)) : list Z :=
  List.map snd (List.filter (fun p => String.eqb (fst p) w) pairs).

Definition reduce_entry (entry : string * list Z) : string * Z :=
  (fst entry, reduce_function (snd entry)).

(** The half-open range [r] holds no index. *)
Definition empty_range (r : Z * Z) : Prop := snd r <= fst r.


(** "The trailing ranges are the empty ones": after an empty range
    only empty ranges follow. *)
Definition empties_trail (sz nt : Z) : Prop :=
  forall i j, 0 <= i <= j -> j < nt ->
    empty_range (range_of sz nt i) -> empty_range (range_of sz nt j).

(** The records with indices from [i] up to, not including, [e]. *)
Definition records_between (input_data : list string) (i e : Z) : list string :=
  firstn (Z.to_nat (e - i)) (skipn (Z.to_nat i) input_data).

(** Every pair the thread will still push, in the order it will. *)
Definition future (input_data : list string) (th : thread) : list (string * Z) :=
  (th_pending th
   ++ flat_map map_function (records_between input_data (th_i th) (th_end th)))%list.

Definition futures (input_data : list string) (ths : list thread)
  : list (string * Z) :=
  flat_map (future input_data) ths.

(** The thread's range lies inside the vector. *)
Definition wf_thread (input_data : list string) (th : thread) : Prop :=
  0 <= th_i th <= th_end th /\ th_end th <= size input_data.

(** A bound on the steps the thread can still take. *)
Definition steps_left (input_data : list string) (th : thread) : nat :=
  (List.length (future input_data th) + Z.to_nat (th_end th - th_i th))%nat.

Definition total_steps_left (input_data : list string) (ths : list thread) : nat :=
  list_sum (List.map (steps_left input_data) ths).

(** The invariant of a run: the pairs pushed so far, in the order they
    were pushed, together with the pairs still to come, are the pairs
    [all] that were to come at the start. *)
Definition run_inv (input_data : list string) (all : list (string * Z))
  (st : state) : Prop :=
  Forall (wf_thread input_data) (fst st) /\
  exists pushed,
    snd st = merge_all pushed StdMap.empty /\
    Permutation (pushed ++ futures input_data (fst st)) all.

(** Only ones are waiting to be pushed, only ones are in the map, and
    the map is in key order. *)
Definition ones_inv (st : state) : Prop :=
  Forall (fun th => Forall (fun p => snd p = 1) (th_pending th)) (fst st) /\
  (forall w l, StdMap.find w (snd st) = Some l -> Forall (fun x => x = 1) l) /\
  StdMap.ordered (snd st).

Definition in_range (j : Z) (r : Z * Z) : Prop := fst r <= j < snd r.

Definition range_size (r : Z * Z) : Z := snd r - fst r.

(** A small corpus with a token that is only punctuation, and a
    schedule of its two threads. *)
Definition small_input : list string := [ "b a"; "a - B." ].

Definition small_sched : list nat := [1; 0; 1; 0; 1; 0; 1]%nat.

(** Every character of [s] satisfies [p]. *)
Fixpoint all_chars (p : ascii -> bool) (s : string) : bool :=
  match s with
  | EmptyString => true
  | String c s' => p c && all_chars p s'
  end.

(** Neither whitespace, nor punctuation, nor an upper-case letter. *)
Definition clean_char (c : ascii) : bool :=
  negb (isspace c) && negb (ispunct c) && negb (isupper c).

Definition not_space (c : ascii) : bool := negb (isspace c).

(** The exact sum of a list of integers. *)
Definition zsum (l : list Z) : Z := fold_right Z.add 0 l.

(** The number of integers stored in the intermediate map. *)
Definition stored (m : imap) : nat :=
  list_sum (List.map (fun entry => List.length (snd entry)) m).

(** The number of times [c] occurs in [s]. *)
Fixpoint count_char (c : ascii) (s : string) : nat :=
  match s with
  | EmptyString => O
  | String d s' => ((if Ascii.eqb c d then 1 else 0) + count_char c s')%nat
  end.

Definition newline : ascii := ascii_of_nat 10.

(** Every list of the map holds only ones. *)
Definition all_ones (m : imap) : Prop :=
  Forall (fun entry => Forall (fun x => x = 1) (snd entry)) m.

(* ================================================================== *)
(** * Theorems *)

(** ** Machine integers *)

Lemma to_int_id (z : Z) : is_int z -> to_int z = z.
Proof.
  unfold is_int, to_int, INT_MIN, INT_MAX. intros H.
  rewrite Z.mod_small; lia.
Qed.

Lemma to_ulong_id (z : Z) : 0 <= z < 2 ^ 64 -> to_ulong z = z.
Proof. unfold to_ulong. intros H. apply Z.mod_small. exact H. Qed.

(** Addition in [int] commutes inside the running sum. *)
Lemma to_int_add_swap (a x y : Z) :
  to_int (to_int (a + x) + y) = to_int (to_int (a + y) + x).
Proof.
  unfold to_int.
  replace ((a + x + 2 ^ 31) mod 2 ^ 32 - 2 ^ 31 + y + 2 ^ 31)
    with ((a + x + 2 ^ 31) mod 2 ^ 32 + y) by lia.
  replace ((a + y + 2 ^ 31) mod 2 ^ 32 - 2 ^ 31 + x + 2 ^ 31)
    with ((a + y + 2 ^ 31) mod 2 ^ 32 + x) by lia.
  rewrite !Z.add_mod_idemp_l by lia.
  do 2 f_equal. lia.
Qed.

(** ** Tokenising: the extraction loop against whitespace splitting *)

Lemma append_nil_r (s : string) : (s ++ EmptyString)%string = s.
Proof. induction s as [|c s IH]; simpl; [reflexivity | now rewrite IH]. Qed.

Lemma append_assoc (a b c : string) :
  ((a ++ b) ++ c)%string = (a ++ (b ++ c))%string.
Proof. induction a as [|x a IH]; simpl; [reflexivity | now rewrite IH]. Qed.

Lemma split_ws_skipws (s : string) :
  Spec.split_ws EmptyString s = Spec.split_ws EmptyString (skipws s).
Proof.
  induction s as [|c s IH]; simpl; [reflexivity|].
  destruct (isspace c) eqn:E; [exact IH|].
  simpl. now rewrite E.
Qed.

Lemma split_ws_read_word (s cur : string) :
  Spec.split_ws cur s =
  (opt_token (cur ++ fst (read_word s)) ++ Spec.split_ws EmptyString (snd (read_word s)))%list.
Proof.
  revert cur. induction s as [|c s IH]; intros cur; simpl.
  - rewrite append_nil_r. destruct cur; reflexivity.
  - destruct (isspace c) eqn:E; simpl.
    + rewrite append_nil_r, E. destruct cur; reflexivity.
    + rewrite IH. destruct (read_word s) as [w r]. simpl.
      now rewrite append_assoc.
Qed.

Lemma read_word_length (s : string) :
  (String.length (snd (read_word s)) + String.length (fst (read_word s))
   = String.length s)%nat.
Proof.
  induction s as [|c s IH]; simpl; [reflexivity|].
  destruct (isspace c); simpl; [lia|].
  destruct (read_word s) as [w r]. simpl in *. lia.
Qed.

Lemma skipws_length (s : string) :
  (String.length (skipws s) <= String.length s)%nat.
Proof.
  induction s as [|c s IH]; simpl; [lia|].
  destruct (isspace c); simpl; lia.
Qed.

Lemma skipws_head (s : string) :
  skipws s = EmptyString \/ exists c t, skipws s = String c t /\ isspace c = false.
Proof.
  induction s as [|c s IH]; simpl; [now left|].
  destruct (isspace c) eqn:E; [exact IH|].
  right. now exists c, s.
Qed.

(** One extraction is one token of the record. *)
Lemma extract_tokens (s : string) :
  match extract s with
  | None => Spec.tokens s = []
  | Some (w, r) =>
      Spec.tokens s = w :: Spec.tokens r /\ (String.length r < String.length s)%nat
  end.
Proof.
  unfold extract, Spec.tokens.
  rewrite (split_ws_skipws s).
  pose proof (skipws_length s) as Ls.
  destruct (skipws_head s) as [E | (c & t & E & Hc)]; rewrite E in *.
  - reflexivity.
  - rewrite split_ws_read_word.
    pose proof (read_word_length (String c t)) as L.
    simpl in *. rewrite Hc in *.
    destruct (read_word t) as [w r]. simpl in *.
    split; [reflexivity | lia].
Qed.

Lemma remove_if_transform_normalize (w : string) :
  transform tolower (remove_if ispunct w) = Spec.normalize w.
Proof.
  unfold Spec.normalize.
  induction w as [|c w IH]; simpl; [reflexivity|].
  destruct (ispunct c); simpl; [exact IH | now rewrite IH].
Qed.

(** With fuel beyond the length of the stream the loop ends because an
    extraction fails, and has then pushed one pair per token. *)
Lemma map_loop_tokens (fuel : nat) (iss : string) (result : list (string * Z)) :
  (String.length iss < fuel)%nat ->
  map_loop fuel iss result = (result ++ List.map emit (Spec.tokens iss))%list.
Proof.
  revert iss result. induction fuel as [|fuel IH]; intros iss result Hf; [lia|].
  simpl. pose proof (extract_tokens iss) as He.
  destruct (extract iss) as [[w r]|].
  - destruct He as [Ht Hl].
    rewrite IH by lia. rewrite Ht. simpl.
    rewrite remove_if_transform_normalize, <- app_assoc. reflexivity.
  - rewrite He. simpl. now rewrite app_nil_r.
Qed.

Lemma map_function_tokens (input : string) :
  map_function input = List.map emit (Spec.tokens input).
Proof. unfold map_function. now rewrite map_loop_tokens by lia. Qed.

(** More fuel changes nothing. *)
Lemma map_loop_fuel (fuel : nat) (input : string) :
  (String.length input < fuel)%nat -> map_loop fuel input [] = map_function input.
Proof.
  intros H. rewrite map_function_tokens. now rewrite map_loop_tokens.
Qed.

Lemma map_function_counts (input : string) :
  Forall (fun p => snd p = 1) (map_function input).
Proof.
  rewrite map_function_tokens. apply Forall_forall.
  intros p Hp. apply in_map_iff in Hp. destruct Hp as (t & <- & _). reflexivity.
Qed.

(** ** [std::map]: lookup, update, order *)

Module StdMapFacts.
Import StdMap.

Lemma compare_refl (a : string) : String.compare a a = Eq.
Proof. now apply String_as_OT.cmp_eq. Qed.

Lemma compare_eq (a b : string) : String.compare a b = Eq -> a = b.
Proof. apply String_as_OT.cmp_eq. Qed.

Lemma compare_gt (a b : string) : String.compare a b = Gt -> key_lt b a.
Proof.
  unfold key_lt. intros H. rewrite String.compare_antisym, H. reflexivity.
Qed.

Lemma key_lt_trans (a b c : string) : key_lt a b -> key_lt b c -> key_lt a c.
Proof.
  unfold key_lt. intros H1 H2.
  apply String_as_OT.cmp_lt in H1, H2. apply String_as_OT.cmp_lt.
  eapply String_as_OT.lt_trans; eassumption.
Qed.

Lemma key_lt_irrefl (a : string) : ~ key_lt a a.
Proof. unfold key_lt. rewrite compare_refl. discriminate. Qed.

Lemma key_lt_gt (a b : string) : key_lt a b -> String.compare b a = Gt.
Proof.
  unfold key_lt. intros H. rewrite String.compare_antisym, H. reflexivity.
Qed.

(** Case analysis on a comparison, with the order facts in context. *)
Ltac cmp a b :=
  let E := fresh "E" in
  destruct (String.compare a b) eqn:E;
  [ apply compare_eq in E; try subst | | pose proof (compare_gt _ _ E) ].

Section Facts.
Context {V : Type}.
Implicit Types (m : t V) (k : string).

Lemma find_modify k k' dflt f m :
  find k (modify k' dflt f m) =
  if String.eqb k k' then Some (f (get dflt k' m)) else find k m.
Proof.
  unfold get.
  induction m as [|[k0 v0] m IH]; simpl.
  - destruct (String.eqb_spec k k') as [->|N].
    + now rewrite compare_refl.
    + cmp k k'; congruence.
  - destruct (String.compare k' k0) eqn:E'.
    + apply compare_eq in E'. subst k0. simpl.
      destruct (String.eqb_spec k k') as [->|N].
      * now rewrite compare_refl.
      * cmp k k'; congruence.
    + simpl. destruct (String.eqb_spec k k') as [->|N].
      * now rewrite compare_refl.
      * cmp k k'; try congruence.
        assert (L : key_lt k k0) by (eapply key_lt_trans; eassumption).
        unfold key_lt in L. now rewrite L.
    + simpl. rewrite IH.
      destruct (String.eqb_spec k k') as [->|N].
      * now rewrite E'.
      * reflexivity.
Qed.

Lemma keys_modify_head k dflt f m :
  forall x, HdRel key_lt x (keys m) -> key_lt x k ->
            HdRel key_lt x (keys (modify k dflt f m)).
Proof.
  intros x Hx Hk. destruct m as [|[k0 v0] m]; simpl.
  - now constructor.
  - destruct (String.compare k k0); simpl; constructor; auto;
      now inversion Hx.
Qed.

Lemma modify_ordered k dflt f m :
  ordered m -> ordered (modify k dflt f m).
Proof.
  unfold ordered.
  induction m as [|[k0 v0] m IH]; simpl; intros S.
  - repeat constructor.
  - inversion S as [|? ? S' H']; subst.
    destruct (String.compare k k0) eqn:E; simpl.
    + constructor; assumption.
    + constructor; [assumption | constructor; exact E].
    + constructor; [auto|].
      apply keys_modify_head; [assumption | now apply compare_gt].
Qed.

(** Below the first key nothing is found. *)
Lemma find_below k x m :
  HdRel key_lt x (keys m) -> (k = x \/ key_lt k x) -> find k m = None.
Proof.
  intros H Hk. destruct m as [|[k0 v0] m]; simpl; [reflexivity|].
  inversion H as [|? ? L]; subst.
  assert (L' : key_lt k k0).
  { destruct Hk as [->|Hk]; [assumption | eapply key_lt_trans; eassumption]. }
  unfold key_lt in L'. now rewrite L'.
Qed.

(** Two ordered maps with the same lookups are the same map. *)
Lemma ordered_ext m1 :
  forall m2, ordered m1 -> ordered m2 ->
             (forall k, find k m1 = find k m2) -> m1 = m2.
Proof.
  unfold ordered.
  induction m1 as [|[k1 v1] m1 IH]; intros [|[k2 v2] m2] S1 S2 H.
  - reflexivity.
  - specialize (H k2). simpl in H. rewrite compare_refl in H. discriminate.
  - specialize (H k1). simpl in H. rewrite compare_refl in H. discriminate.
  - simpl in S1, S2.
    inversion S1 as [|? ? S1' Hd1]; subst.
    inversion S2 as [|? ? S2' Hd2]; subst.
    assert (k1 = k2) as ->.
    { pose proof (H k1) as A. pose proof (H k2) as B. simpl in A, B.
      rewrite compare_refl in A, B.
      cmp k1 k2; [reflexivity | discriminate |].
      match goal with L : key_lt k2 k1 |- _ => unfold key_lt in L; rewrite L in B end.
      discriminate. }
    assert (v1 = v2) as ->.
    { specialize (H k2). simpl in H. rewrite compare_refl in H. congruence. }
    f_equal. apply IH; try assumption.
    intros k. specialize (H k). simpl in H.
    cmp k k2.
    + rewrite (find_below k2 k2 m1), (find_below k2 k2 m2) by auto. reflexivity.
    + rewrite (find_below k k2 m1), (find_below k k2 m2) by auto. reflexivity.
    + exact H.
Qed.

(** Above every key, a new entry goes to the end. *)
Lemma modify_above k dflt f m :
  Forall (fun k' => key_lt k' k) (keys m) ->
  modify k dflt f m = (m ++ [(k, f dflt)])%list.
Proof.
  induction m as [|[k0 v0] m IH]; simpl; intros H; [reflexivity|].
  inversion H as [|? ? L H']; subst.
  rewrite (key_lt_gt _ _ L). now rewrite IH.
Qed.

End Facts.

Lemma find_map {V W : Type} (g : V -> W) (k : string) (m : t V) :
  find k (List.map (fun e => (fst e, g (snd e))) m) = option_map g (find k m).
Proof.
  induction m as [|[k0 v0] m IH]; simpl; [reflexivity|].
  destruct (String.compare k k0); simpl; auto.
Qed.

Lemma sorted_above (k : string) (l : list string) :
  Sorted key_lt (k :: l) -> Forall (key_lt k) l.
Proof.
  intros S. apply Sorted_StronglySorted in S.
  - now inversion S.
  - intros a b c. apply key_lt_trans.
Qed.

End StdMapFacts.
Import StdMapFacts.

(** ** The intermediate map and the reduce phase *)

Lemma push_back_at_find (w : string) (p : string * Z) (m : imap) :
  StdMap.find w (push_back_at p m) =
  if String.eqb w (fst p) then Some (StdMap.get [] (fst p) m ++ [snd p])%list
  else StdMap.find w m.
Proof. unfold push_back_at. now rewrite find_modify. Qed.

Lemma merge_all_find (w : string) (pairs : list (string * Z)) :
  forall m : imap,
    StdMap.find w (merge_all pairs m) =
    match values_of w pairs with
    | [] => StdMap.find w m
    | vs => Some (StdMap.get [] w m ++ vs)%list
    end.
Proof.
  unfold merge_all, values_of.
  induction pairs as [|p pairs IH]; intros m; simpl; [reflexivity|].
  rewrite IH. unfold StdMap.get at 1. rewrite !push_back_at_find.
  rewrite (String.eqb_sym w (fst p)).
  destruct (String.eqb_spec (fst p) w) as [<-|N]; simpl.
  - destruct (List.map snd _) as [|v vs]; [reflexivity|].
    now rewrite <- app_assoc.
  - reflexivity.
Qed.

Lemma merge_all_ordered (pairs : list (string * Z)) :
  forall m : imap, StdMap.ordered m -> StdMap.ordered (merge_all pairs m).
Proof.
  unfold merge_all.
  induction pairs as [|p pairs IH]; intros m Hm; simpl; [assumption|].
  apply IH. now apply modify_ordered.
Qed.

Lemma merge_all_app (e1 e2 : list (string * Z)) (m : imap) :
  merge_all (e1 ++ e2) m = merge_all e2 (merge_all e1 m).
Proof. unfold merge_all. now rewrite fold_left_app. Qed.

Lemma sorted_app_before (l1 l2 : list string) (k : string) :
  Sorted StdMap.key_lt (l1 ++ k :: l2) ->
  Forall (fun x => StdMap.key_lt x k) l1.
Proof.
  intros S. apply Sorted_StronglySorted in S;
    [|intros a b c; apply key_lt_trans].
  induction l1 as [|x l1 IH]; simpl in *; constructor;
    inversion S as [|? ? S' F]; subst.
  - rewrite Forall_forall in F. apply F. apply in_or_app. right. now left.
  - now apply IH.
Qed.

Lemma reduce_loop_map (m : imap) :
  forall acc : fmap,
    Sorted StdMap.key_lt (StdMap.keys acc ++ StdMap.keys m) ->
    fold_left (fun fr entry => assign (fst entry) (reduce_function (snd entry)) fr)
      m acc
    = (acc ++ List.map reduce_entry m)%list.
Proof.
  induction m as [|[k v] m IH]; intros acc S; simpl.
  - now rewrite app_nil_r.
  - simpl in S. unfold assign at 2.
    rewrite modify_above by (eapply sorted_app_before; exact S).
    rewrite IH.
    + now rewrite <- app_assoc.
    + unfold StdMap.keys in *. rewrite map_app, <- app_assoc. exact S.
Qed.

(** The reduce phase keeps the keys and their order and sums each list. *)
Lemma reduce_phase_map (m : imap) :
  StdMap.ordered m -> reduce_phase m = List.map reduce_entry m.
Proof. intros S. unfold reduce_phase. now rewrite reduce_loop_map. Qed.

Lemma keys_reduce_entry (m : imap) :
  StdMap.keys (List.map reduce_entry m) = StdMap.keys m.
Proof.
  unfold StdMap.keys. rewrite map_map. reflexivity.
Qed.

Lemma reduce_phase_find (w : string) (m : imap) :
  StdMap.ordered m ->
  StdMap.find w (reduce_phase m) = option_map reduce_function (StdMap.find w m).
Proof.
  intros S. rewrite reduce_phase_map by assumption. apply find_map.
Qed.

Lemma sum_loop_perm (l1 l2 : list Z) :
  Permutation l1 l2 ->
  forall acc, fold_left (fun acc x => to_int (acc + x)) l1 acc
            = fold_left (fun acc x => to_int (acc + x)) l2 acc.
Proof.
  induction 1 as [| x l1 l2 _ IH | x y l | l1 l2 l3 _ IH1 _ IH2]; intros acc; simpl.
  - reflexivity.
  - apply IH.
  - now rewrite to_int_add_swap.
  - now rewrite IH1.
Qed.

Lemma reduce_function_perm (l1 l2 : list Z) :
  Permutation l1 l2 -> reduce_function l1 = reduce_function l2.
Proof. intros P. unfold reduce_function. now apply sum_loop_perm. Qed.

Lemma sum_loop_ones (l : list Z) :
  Forall (fun x => x = 1) l ->
  forall acc, 0 <= acc -> acc + Z.of_nat (List.length l) <= INT_MAX ->
    fold_left (fun acc x => to_int (acc + x)) l acc = acc + Z.of_nat (List.length l).
Proof.
  induction 1 as [|x l -> _ IH]; intros acc H0 H1; simpl List.length in *; simpl.
  - lia.
  - rewrite to_int_id by (unfold is_int, INT_MIN, INT_MAX in *; lia).
    rewrite IH by lia. lia.
Qed.

(** A list of ones sums to its length, as long as that is an [int]. *)
Lemma reduce_function_ones (l : list Z) :
  Forall (fun x => x = 1) l -> Z.of_nat (List.length l) <= INT_MAX ->
  reduce_function l = Z.of_nat (List.length l).
Proof.
  intros H B. unfold reduce_function. now rewrite sum_loop_ones by (auto; lia).
Qed.

Lemma values_of_perm (w : string) (e1 e2 : list (string * Z)) :
  Permutation e1 e2 -> Permutation (values_of w e1) (values_of w e2).
Proof.
  intros P. unfold values_of. apply Permutation_map.
  induction P; simpl.
  - constructor.
  - destruct (String.eqb (fst x) w); [now constructor | assumption].
  - destruct (String.eqb (fst x) w), (String.eqb (fst y) w);
      try apply Permutation_refl. apply perm_swap.
  - eapply Permutation_trans; eassumption.
Qed.

Lemma values_of_app (w : string) (e1 e2 : list (string * Z)) :
  values_of w (e1 ++ e2) = (values_of w e1 ++ values_of w e2)%list.
Proof. unfold values_of. now rewrite filter_app, map_app. Qed.

(** The final aggregate of a sequence of insertions, looked up. *)
Lemma final_find (w : string) (pairs : list (string * Z)) :
  StdMap.find w (reduce_phase (merge_all pairs StdMap.empty)) =
  match values_of w pairs with
  | [] => None
  | vs => Some (reduce_function vs)
  end.
Proof.
  rewrite reduce_phase_find by (apply merge_all_ordered; constructor).
  rewrite merge_all_find. unfold StdMap.get. simpl.
  destruct (values_of w pairs); reflexivity.
Qed.

Lemma final_ordered (m : imap) :
  StdMap.ordered m -> StdMap.ordered (reduce_phase m).
Proof.
  intros S. rewrite reduce_phase_map by assumption.
  unfold StdMap.ordered. now rewrite keys_reduce_entry.
Qed.

(** Insertions in a different order give the same final aggregate. *)
Lemma final_perm (e1 e2 : list (string * Z)) :
  Permutation e1 e2 ->
  reduce_phase (merge_all e1 StdMap.empty) = reduce_phase (merge_all e2 StdMap.empty).
Proof.
  intros P.
  apply ordered_ext;
    try (apply final_ordered, merge_all_ordered; constructor).
  intros w. rewrite !final_find.
  pose proof (values_of_perm w _ _ P) as Pw.
  destruct (values_of w e1) as [|v1 l1] eqn:E1.
  - apply Permutation_nil in Pw. now rewrite Pw.
  - destruct (values_of w e2) as [|v2 l2] eqn:E2.
    + apply Permutation_sym, Permutation_nil in Pw. discriminate.
    + f_equal. now apply reduce_function_perm.
Qed.

(** ** Partitioning *)

Section Partition.
Variables sz nt : Z.
Hypothesis Hsz : 0 <= sz < 2 ^ 64.
Hypothesis Hnt : 1 <= nt <= INT_MAX.

Local Abbreviation q := (sz / nt).

Lemma quotient_bounds : 0 <= q /\ q * nt <= sz /\ sz < (q + 1) * nt.
  Proof.
    pose proof (Z.div_mod sz nt ltac:(lia)) as D.
    pose proof (Z.mod_pos_bound sz nt ltac:(lia)) as B.
    assert (0 <= sz / nt) by (apply Z.div_pos; lia).
    split; [assumption | split; nia].
  Qed.

Lemma int_max_small : INT_MAX < 2 ^ 64.
  Proof. unfold INT_MAX. lia. Qed.

Lemma range_start_eq (i : Z) : 0 <= i < nt -> range_start sz nt i = i * q.
  Proof.
    intros Hi. unfold range_start.
    pose proof quotient_bounds as (Q0 & Q1 & Q2). pose proof int_max_small.
    rewrite (to_ulong_id i), (to_ulong_id nt) by lia.
    apply to_ulong_id. nia.
  Qed.

Lemma range_end_eq (i : Z) :
    0 <= i < nt ->
    range_end sz nt i = if i =? nt - 1 then sz else (i + 1) * q.
  Proof.
    intros Hi. unfold range_end.
    pose proof quotient_bounds as (Q0 & Q1 & Q2). pose proof int_max_small.
    destruct (Z.eqb_spec i (nt - 1)) as [E|N]; [reflexivity|].
    rewrite (to_ulong_id (i + 1)), (to_ulong_id nt) by lia.
    apply to_ulong_id. nia.
  Qed.

Lemma range_le (i : Z) :
    0 <= i < nt -> 0 <= range_start sz nt i <= range_end sz nt i /\ range_end sz nt i <= sz.
  Proof.
    intros Hi. rewrite range_start_eq, range_end_eq by assumption.
    pose proof quotient_bounds as (Q0 & Q1 & Q2).
    destruct (Z.eqb_spec i (nt - 1)); nia.
  Qed.

Lemma range_chain (i : Z) :
    0 <= i < nt - 1 -> range_end sz nt i = range_start sz nt (i + 1).
  Proof.
    intros Hi. rewrite range_start_eq, range_end_eq by lia.
    destruct (Z.eqb_spec i (nt - 1)); lia.
  Qed.

Lemma range_cover (j : Z) :
    0 <= j < sz ->
    exists i, 0 <= i < nt /\ range_start sz nt i <= j < range_end sz nt i.
  Proof.
    intros Hj. pose proof quotient_bounds as (Q0 & Q1 & Q2).
    destruct (Z.eq_dec q 0) as [Z0|NZ].
    - exists (nt - 1). rewrite range_start_eq, range_end_eq by lia.
      rewrite Z.eqb_refl. nia.
    - pose proof (Z.div_mod j q NZ) as D.
      pose proof (Z.mod_pos_bound j q ltac:(lia)) as B.
      assert (0 <= j / q) by (apply Z.div_pos; lia).
      destruct (Z_lt_le_dec (j / q) (nt - 1)) as [L|G].
      + exists (j / q). rewrite range_start_eq, range_end_eq by lia.
        destruct (Z.eqb_spec (j / q) (nt - 1)); nia.
      + exists (nt - 1). rewrite range_start_eq, range_end_eq by lia.
        rewrite Z.eqb_refl. nia.
  Qed.

Lemma range_disjoint (i i' j : Z) :
    0 <= i < nt -> 0 <= i' < nt ->
    range_start sz nt i <= j < range_end sz nt i ->
    range_start sz nt i' <= j < range_end sz nt i' ->
    i = i'.
  Proof.
    intros Hi Hi'. rewrite !range_start_eq, !range_end_eq by assumption.
    pose proof quotient_bounds as (Q0 & Q1 & Q2).
    destruct (Z.eqb_spec i (nt - 1)), (Z.eqb_spec i' (nt - 1)); intros A B;
      try lia; nia.
  Qed.

Lemma ranges_nth (i : Z) :
    0 <= i < nt ->
    nth_error (ranges sz nt) (Z.to_nat i)
    = Some (range_start sz nt i, range_end sz nt i).
  Proof.
    intros Hi. unfold ranges, loop_indices.
    rewrite !nth_error_map, nth_error_seq.
    destruct (Nat.ltb_spec (Z.to_nat i) (Z.to_nat nt)) as [_|F]; [|lia].
    simpl. now rewrite Z2Nat.id by lia.
  Qed.

End Partition.

Lemma ranges_length (sz nt : Z) : List.length (ranges sz nt) = Z.to_nat nt.
Proof. unfold ranges, loop_indices. now rewrite !length_map, length_seq. Qed.

(** ** Threads: what is still to be pushed *)

Lemma skipn_nth {A} (l : list A) (n : nat) (x : A) :
  nth_error l n = Some x -> skipn n l = x :: skipn (S n) l.
Proof.
  revert n. induction l as [|y l IH]; intros [|n] H; simpl in *; try discriminate.
  - now inversion H.
  - now apply IH.
Qed.

Lemma firstn_plus {A} (n k : nat) (l : list A) :
  firstn (n + k) l = (firstn n l ++ firstn k (skipn n l))%list.
Proof.
  revert l. induction n as [|n IH]; intros l; simpl; [reflexivity|].
  destruct l as [|x l]; simpl.
  - now destruct k.
  - now rewrite IH.
Qed.

Lemma skipn_plus {A} (n k : nat) (l : list A) :
  skipn (n + k) l = skipn k (skipn n l).
Proof.
  revert l. induction n as [|n IH]; intros l; simpl; [reflexivity|].
  destruct l as [|x l]; simpl; [now destruct k | apply IH].
Qed.

Section Records.
Variable input_data : list string.

Lemma records_between_cons (i e : Z) (s : string) :
    0 <= i < e -> nth_error input_data (Z.to_nat i) = Some s ->
    records_between input_data i e = s :: records_between input_data (i + 1) e.
  Proof.
    intros Hi Hs. unfold records_between.
    replace (Z.to_nat (e - i)) with (S (Z.to_nat (e - (i + 1)))) by lia.
    replace (Z.to_nat (i + 1)) with (S (Z.to_nat i)) by lia.
    now rewrite (skipn_nth _ _ _ Hs).
  Qed.

Lemma records_between_nil (i e : Z) :
    e <= i -> records_between input_data i e = [].
  Proof.
    intros H. unfold records_between.
    now replace (Z.to_nat (e - i)) with O by lia.
  Qed.

Lemma records_between_app (a b c : Z) :
    0 <= a <= b -> b <= c ->
    (records_between input_data a b ++ records_between input_data b c)%list
    = records_between input_data a c.
  Proof.
    intros H1 H2. unfold records_between.
    replace (Z.to_nat (c - a)) with (Z.to_nat (b - a) + Z.to_nat (c - b))%nat by lia.
    replace (Z.to_nat b) with (Z.to_nat a + Z.to_nat (b - a))%nat by lia.
    now rewrite firstn_plus, skipn_plus.
  Qed.

Lemma records_between_all :
    records_between input_data 0 (size input_data) = input_data.
  Proof.
    unfold records_between, size. simpl.
    rewrite Z.sub_0_r, Nat2Z.id. apply firstn_all.
  Qed.

Lemma vector_at_returns (i : Z) (s : string) :
    vector_at input_data i = Returns s ->
    to_ulong i < size input_data /\
    nth_error input_data (Z.to_nat (to_ulong i)) = Some s.
  Proof.
    unfold vector_at. cbv zeta.
    destruct (Z.ltb_spec (to_ulong i) (size input_data)) as [L|G]; [|discriminate].
    destruct (nth_error _ _) as [x|]; [|discriminate].
    intros H. inversion H. now split.
  Qed.

Lemma vector_at_in_range (i : Z) :
    0 <= i < size input_data -> i < 2 ^ 64 ->
    exists s, vector_at input_data i = Returns s /\
              nth_error input_data (Z.to_nat i) = Some s.
  Proof.
    intros Hi Hb. unfold vector_at. cbv zeta.
    rewrite to_ulong_id by lia.
    destruct (Z.ltb_spec i (size input_data)) as [L|G]; [|lia].
    destruct (nth_error input_data (Z.to_nat i)) as [x|] eqn:E.
    - now exists x.
    - apply nth_error_None in E. unfold size in *. lia.
  Qed.

Lemma vector_at_out_of_range (i : Z) :
    size input_data <= to_ulong i -> vector_at input_data i = Undefined.
  Proof.
    intros H. unfold vector_at. cbv zeta.
    destruct (Z.ltb_spec (to_ulong i) (size input_data)); [lia | reflexivity].
  Qed.

Lemma vector_at_never_aborts (i : Z) : vector_at input_data i <> Aborts.
  Proof.
    unfold vector_at. cbv zeta.
    destruct (_ <? _); [destruct (nth_error _ _)|]; discriminate.
  Qed.

End Records.

(** ** One step of one thread *)

Section Steps.
Variable input_data : list string.
Hypothesis Hsize : size input_data <= INT_MAX.

Lemma thread_step_next (th th' : thread) (m m' : imap) :
    wf_thread input_data th ->
    thread_step input_data th m = Next th' m' ->
    wf_thread input_data th' /\
    (steps_left input_data th' < steps_left input_data th)%nat /\
    ((exists p, future input_data th = p :: future input_data th'
                /\ m' = push_back_at p m)
     \/ (future input_data th' = future input_data th /\ m' = m)).
  Proof.
    destruct th as [i e pend]. unfold wf_thread, thread_step, steps_left, future.
    simpl. intros [Hi He] H.
    destruct pend as [|p rest].
    - destruct (Z.ltb_spec i e) as [L|G]; [|discriminate].
      destruct (vector_at input_data i) as [s| |] eqn:V; try discriminate.
      inversion H; subst th' m'; clear H. simpl.
      apply vector_at_returns in V. destruct V as [_ V].
      rewrite to_ulong_id in V by (unfold INT_MAX in *; lia).
      rewrite to_int_id by (unfold is_int, INT_MIN, INT_MAX in *; lia).
      rewrite (records_between_cons input_data i e s) by (auto; lia).
      simpl. repeat split; try lia. right. now split.
    - inversion H; subst th' m'; clear H. simpl.
      repeat split; try lia. left. exists p. now split.
  Qed.

Lemma thread_step_progress (th : thread) (m : imap) :
    wf_thread input_data th -> finished th = false ->
    exists th' m', thread_step input_data th m = Next th' m'.
  Proof.
    destruct th as [i e pend]. unfold wf_thread, thread_step, finished. simpl.
    intros [Hi He] F. destruct pend as [|p rest]; [|eauto].
    destruct (Z.ltb_spec i e) as [L|G]; [|discriminate].
    destruct (vector_at_in_range input_data i) as (s & -> & _);
      [lia | unfold INT_MAX in *; lia | eauto].
  Qed.

  (** Inside the vector no step is an access out of range. *)
Lemma thread_step_safe (th : thread) (m : imap) :
    wf_thread input_data th -> thread_step input_data th m <> Crashed.
  Proof.
    intros W. destruct (finished th) eqn:F.
    - destruct th as [i e pend]. unfold thread_step, finished in *. simpl in *.
      destruct pend; [|discriminate]. destruct (i <? e); discriminate.
    - destruct (thread_step_progress th m W F) as (th' & m' & ->). discriminate.
  Qed.

Lemma finished_future (th : thread) :
    finished th = true -> future input_data th = [].
  Proof.
    destruct th as [i e pend]. unfold finished, future. simpl.
    destruct pend; [|discriminate].
    destruct (Z.ltb_spec i e); [discriminate|]. intros _.
    now rewrite records_between_nil by lia.
  Qed.

Lemma finished_futures (ths : list thread) :
    forallb finished ths = true -> futures input_data ths = [].
  Proof.
    induction ths as [|th ths IH]; simpl; [reflexivity|].
    intros H. apply andb_prop in H. destruct H as [H1 H2].
    now rewrite finished_future, IH.
  Qed.

  (** ** One step of the system *)

Lemma set_nth_split {A} (k : nat) (x y : A) (l : list A) :
    nth_error l k = Some y ->
    exists l1 l2, l = (l1 ++ y :: l2)%list /\ set_nth k x l = (l1 ++ x :: l2)%list.
  Proof.
    revert k. induction l as [|z l IH]; intros [|k] H; simpl in *; try discriminate.
    - inversion H; subst. now exists [], l.
    - destruct (IH k H) as (l1 & l2 & -> & E).
      exists (z :: l1), l2. simpl. now rewrite E.
  Qed.

Lemma total_steps_left_app (l1 l2 : list thread) :
    total_steps_left input_data (l1 ++ l2)
    = (total_steps_left input_data l1 + total_steps_left input_data l2)%nat.
  Proof. unfold total_steps_left. now rewrite map_app, list_sum_app. Qed.

Lemma sys_step_inv (all : list (string * Z)) (k : nat) (st st' : state) :
    run_inv input_data all st ->
    sys_step input_data k st = Some st' ->
    run_inv input_data all st' /\
    (total_steps_left input_data (fst st') < total_steps_left input_data (fst st))%nat.
  Proof.
    destruct st as [ths m]. unfold sys_step, run_inv. simpl.
    intros (W & pushed & -> & P) H.
    destruct (nth_error ths k) as [th|] eqn:K; [|discriminate].
    destruct (thread_step input_data th _) as [| |th' m'] eqn:T; try discriminate.
    inversion H; subst st'; clear H. simpl.
    destruct (set_nth_split k th' th ths K) as (l1 & l2 & -> & ->).
    apply Forall_app in W. destruct W as [W1 W2].
    inversion W2 as [|? ? Wth W2']; subst.
    destruct (thread_step_next th th' _ m' Wth T) as (Wth' & D & C).
    repeat split.
    - apply Forall_app. split; [assumption | now constructor].
    - destruct C as [(p & Ef & ->) | (Ef & ->)].
      + exists (pushed ++ [p])%list. split.
        * now rewrite merge_all_app.
        * eapply Permutation_trans; [|exact P].
          unfold futures. rewrite !flat_map_app. simpl. rewrite Ef.
          rewrite <- !app_assoc. apply Permutation_app_head. simpl.
          apply (Permutation_middle (flat_map (future input_data) l1)).
      + exists pushed. split; [reflexivity|].
        unfold futures in *. rewrite !flat_map_app in *. simpl in *.
        now rewrite Ef.
    - rewrite !total_steps_left_app. unfold total_steps_left. simpl. lia.
  Qed.

Lemma run_preserves (all : list (string * Z)) (sched : list nat) :
    forall st st',
      run_inv input_data all st -> run input_data sched st = Some st' ->
      run_inv input_data all st'.
  Proof.
    induction sched as [|k sched IH]; intros st st' I H; simpl in H.
    - now inversion H; subst.
    - destruct (sys_step input_data k st) as [st1|] eqn:S; [|discriminate].
      apply (IH st1); [|assumption].
      now apply (sys_step_inv all k st st1).
  Qed.

Lemma unfinished_thread (ths : list thread) :
    forallb finished ths = false ->
    exists k th, nth_error ths k = Some th /\ finished th = false.
  Proof.
    induction ths as [|th ths IH]; simpl; [discriminate|].
    destruct (finished th) eqn:F; simpl.
    - intros H. destruct (IH H) as (k & th0 & K & F0). now exists (S k), th0.
    - intros _. now exists O, th.
  Qed.

  (** Every state of a run can be run to the end: some schedule joins
      all the threads. *)
Lemma run_to_completion (all : list (string * Z)) (n : nat) :
    forall st,
      run_inv input_data all st ->
      (total_steps_left input_data (fst st) <= n)%nat ->
      exists sched st',
        run input_data sched st = Some st' /\ forallb finished (fst st') = true.
  Proof.
    induction n as [|n IH]; intros st I B;
      destruct (forallb finished (fst st)) eqn:F;
      try (exists [], st; now split).
    - exfalso.
      destruct (unfinished_thread _ F) as (k & th & K & Fk).
      assert (W : wf_thread input_data th).
      { destruct I as [W _]. rewrite Forall_forall in W.
        apply W. eapply nth_error_In; eassumption. }
      destruct (thread_step_progress th (snd st) W Fk) as (th' & m' & T).
      assert (S : sys_step input_data k st = Some (set_nth k th' (fst st), m')).
      { unfold sys_step. now rewrite K, T. }
      destruct (sys_step_inv all k st _ I S) as [_ D]. lia.
    - destruct (unfinished_thread _ F) as (k & th & K & Fk).
      assert (W : wf_thread input_data th).
      { destruct I as [W _]. rewrite Forall_forall in W.
        apply W. eapply nth_error_In; eassumption. }
      destruct (thread_step_progress th (snd st) W Fk) as (th' & m' & T).
      assert (S : sys_step input_data k st = Some (set_nth k th' (fst st), m')).
      { unfold sys_step. now rewrite K, T. }
      destruct (sys_step_inv all k st _ I S) as [I' D].
      destruct (IH _ I' ltac:(lia)) as (sched & st' & R & Fin).
      exists (k :: sched), st'. split; [|assumption].
      simpl. now rewrite S.
  Qed.

End Steps.

(** ** The threads [main] starts *)

Lemma loop_indices_in (nt i : Z) : In i (loop_indices nt) <-> 0 <= i < nt.
Proof.
  unfold loop_indices. rewrite in_map_iff. split.
  - intros (n & <- & H). apply in_seq in H. lia.
  - intros H. exists (Z.to_nat i). split; [lia|]. apply in_seq. lia.
Qed.

Section Initial.
Variable input_data : list string.
Variable hc : Z.
Hypothesis Hsize : size input_data <= INT_MAX.
Hypothesis Hhc : 1 <= hc <= INT_MAX.

Local Abbreviation sz := (size input_data).

Lemma size_ulong : 0 <= sz < 2 ^ 64.
Proof. unfold size, INT_MAX in *. lia. Qed.

Lemma num_threads_id : num_threads_of hc = hc.
Proof.
  unfold num_threads_of. apply to_int_id.
  unfold is_int, INT_MIN, INT_MAX in *. lia.
Qed.

Lemma spawn_range (i : Z) :
  0 <= i < hc ->
  spawn (range_of sz hc i) = mkThread (range_start sz hc i) (range_end sz hc i) [].
Proof.
  intros Hi. unfold spawn, range_of. simpl.
  pose proof (range_le sz hc size_ulong Hhc i Hi) as [R1 R2].
  rewrite !to_int_id by (unfold is_int, INT_MIN, INT_MAX in *; lia).
  reflexivity.
Qed.

Lemma initial_wf : Forall (wf_thread input_data) (map_threads input_data hc).
Proof.
  unfold map_threads, ranges. rewrite num_threads_id.
  apply Forall_forall. intros th Hth.
  apply in_map_iff in Hth. destruct Hth as (r & <- & Hr).
  apply in_map_iff in Hr. destruct Hr as (i & <- & Hi).
  apply loop_indices_in in Hi. rewrite spawn_range by assumption.
  pose proof (range_le sz hc size_ulong Hhc i Hi) as [R1 R2].
  unfold wf_thread. simpl. lia.
Qed.

Lemma future_spawn (i : Z) :
  0 <= i < hc ->
  future input_data (spawn (range_of sz hc i)) =
  flat_map map_function
    (records_between input_data (range_start sz hc i) (range_end sz hc i)).
Proof. intros Hi. now rewrite spawn_range. Qed.

Lemma futures_app (l1 l2 : list thread) :
  futures input_data (l1 ++ l2)
  = (futures input_data l1 ++ futures input_data l2)%list.
Proof. apply flat_map_app. Qed.

Lemma futures_one (th : thread) :
  futures input_data [th] = future input_data th.
Proof. unfold futures. simpl. apply app_nil_r. Qed.

Lemma futures_prefix (n : nat) :
  (n < Z.to_nat hc)%nat ->
  futures input_data
    (List.map spawn (List.map (range_of sz hc) (List.map Z.of_nat (seq 0 n))))
  = flat_map map_function
      (records_between input_data 0 (Z.of_nat n * (sz / hc))).
Proof.
  pose proof (quotient_bounds sz hc size_ulong Hhc) as (Q0 & Q1 & Q2).
  induction n as [|n IH]; intros Hn.
  - rewrite records_between_nil by lia. reflexivity.
  - rewrite seq_S, !map_app. change (0 + n)%nat with n.
    rewrite futures_app, IH by lia. cbn [List.map].
    rewrite futures_one, future_spawn by lia.
    rewrite range_start_eq, range_end_eq by (auto using size_ulong; lia).
    destruct (Z.eqb_spec (Z.of_nat n) (hc - 1)) as [E|_]; [lia|].
    assert (0 <= Z.of_nat n * (sz / hc)) by (apply Z.mul_nonneg_nonneg; lia).
    assert (Z.of_nat n * (sz / hc) <= (Z.of_nat n + 1) * (sz / hc))
      by (apply Z.mul_le_mono_nonneg_r; lia).
    rewrite <- flat_map_app, records_between_app by lia.
    do 2 f_equal. lia.
Qed.

(** The ranges of the threads, one after the other, are the corpus. *)
Lemma initial_futures :
  futures input_data (map_threads input_data hc) = flat_map map_function input_data.
Proof.
  pose proof (quotient_bounds sz hc size_ulong Hhc) as (Q0 & Q1 & Q2).
  unfold map_threads, ranges, loop_indices. rewrite num_threads_id.
  replace (Z.to_nat hc) with (S (Z.to_nat (hc - 1))) by lia.
  rewrite seq_S, !map_app. change (0 + Z.to_nat (hc - 1))%nat with (Z.to_nat (hc - 1)).
  rewrite futures_app, futures_prefix by lia. cbn [List.map].
  rewrite futures_one, future_spawn by lia.
  rewrite range_start_eq, range_end_eq by (auto using size_ulong; lia).
  rewrite Z2Nat.id by lia. rewrite Z.eqb_refl.
  assert (0 <= (hc - 1) * (sz / hc)) by (apply Z.mul_nonneg_nonneg; lia).
  assert ((hc - 1) * (sz / hc) <= sz) by nia.
  rewrite <- flat_map_app, records_between_app by lia.
  now rewrite records_between_all.
Qed.

Lemma initial_inv :
  run_inv input_data (flat_map map_function input_data) (initial input_data hc).
Proof.
  split; [exact initial_wf|].
  exists []. split; [reflexivity|].
  simpl. now rewrite initial_futures.
Qed.

(** A complete run has pushed the pairs of the whole corpus, in some
    order. *)
Lemma complete_run_pushed (sched : list nat) (ths : list thread) (m : imap) :
  run input_data sched (initial input_data hc) = Some (ths, m) ->
  forallb finished ths = true ->
  exists pushed,
    m = merge_all pushed StdMap.empty /\
    Permutation pushed (flat_map map_function input_data).
Proof.
  intros R F.
  pose proof (run_preserves input_data Hsize _ sched _ _ initial_inv R)
    as (_ & pushed & Em & P).
  simpl in Em, P. rewrite finished_futures, app_nil_r in P by assumption.
  now exists pushed.
Qed.

(** It builds the final map of the corpus pushed in order. *)
Lemma final_result_run (sched : list nat) (fr : fmap) :
  final_result input_data hc sched = Some fr ->
  fr = reduce_phase (merge_all (flat_map map_function input_data) StdMap.empty).
Proof.
  unfold final_result. intros H.
  destruct (run input_data sched (initial input_data hc)) as [[ths m]|] eqn:R;
    [|discriminate].
  destruct (forallb finished ths) eqn:F; [|discriminate].
  inversion H; subst fr; clear H.
  destruct (complete_run_pushed sched ths m R F) as (pushed & -> & P).
  now apply final_perm.
Qed.

(** Some schedule is the schedule of a complete run. *)
Lemma final_result_exists :
  exists sched fr, final_result input_data hc sched = Some fr.
Proof.
  destruct (run_to_completion input_data Hsize _ _ _ initial_inv (le_n _))
    as (sched & [ths m] & R & F).
  exists sched, (reduce_phase m). unfold final_result.
  simpl in F. now rewrite R, F.
Qed.

End Initial.

(** ** The pairs of the corpus and the occurrences of a word *)

Lemma corpus_pairs (input_data : list string) :
  flat_map map_function input_data
  = List.map emit (flat_map Spec.tokens input_data).
Proof.
  induction input_data as [|s l IH]; simpl; [reflexivity|].
  now rewrite map_app, IH, map_function_tokens.
Qed.

Lemma values_of_emit (w : string) (toks : list string) :
  values_of w (List.map emit toks)
  = repeat 1 (count_occ string_dec (List.map Spec.normalize toks) w).
Proof.
  unfold values_of.
  induction toks as [|t toks IH]; simpl; [reflexivity|].
  destruct (String.eqb_spec (Spec.normalize t) w) as [E|N];
    destruct (string_dec (Spec.normalize t) w) as [E'|N']; try contradiction.
  - simpl. now rewrite IH.
  - exact IH.
Qed.

Lemma values_of_corpus (w : string) (input_data : list string) :
  values_of w (flat_map map_function input_data)
  = repeat 1 (Spec.occurrences w input_data).
Proof.
  rewrite corpus_pairs, values_of_emit. reflexivity.
Qed.

Lemma repeat_ones (n : nat) : Forall (fun x => x = 1) (repeat 1 n).
Proof. induction n; simpl; constructor; auto. Qed.

(** The final map of the corpus pushed in order holds the totals. *)
Lemma sequential_totals (w : string) (input_data : list string) :
  Z.of_nat (Spec.occurrences w input_data) <= INT_MAX ->
  StdMap.find w
    (reduce_phase (merge_all (flat_map map_function input_data) StdMap.empty))
  = Spec.total w input_data.
Proof.
  intros B. rewrite final_find, values_of_corpus. unfold Spec.total.
  destruct (Spec.occurrences w input_data) as [|n]; [reflexivity|].
  change (repeat 1 (S n)) with (1 :: repeat 1 n). cbv iota.
  change (1 :: repeat 1 n) with (repeat 1 (S n)).
  rewrite reduce_function_ones.
  - now rewrite repeat_length.
  - apply repeat_ones.
  - now rewrite repeat_length.
Qed.

(** ** What holds in every state, whatever the ranges *)

Lemma thread_step_cases (input_data : list string) (th th' : thread) (m m' : imap) :
  thread_step input_data th m = Next th' m' ->
  (exists p rest, th_pending th = p :: rest /\ th_pending th' = rest
                  /\ m' = push_back_at p m)
  \/ (th_pending th = [] /\ m' = m /\
      exists s, vector_at input_data (th_i th) = Returns s
                /\ th_pending th' = map_function s).
Proof.
  unfold thread_step. destruct th as [i e pend]. simpl.
  destruct pend as [|p rest].
  - destruct (i <? e); [|discriminate].
    destruct (vector_at input_data i) as [s| |] eqn:V; try discriminate.
    intros H. inversion H; subst. right. simpl. eauto.
  - intros H. inversion H; subst. left. simpl. eauto.
Qed.

Lemma set_nth_Forall {A} (P : A -> Prop) (k : nat) (x : A) (l : list A) :
  Forall P l -> P x -> Forall P (set_nth k x l).
Proof.
  revert k. induction l as [|y l IH]; intros k Hl Hx; simpl.
  - destruct k; constructor.
  - inversion Hl; subst. destruct k; constructor; auto.
Qed.

Lemma sys_step_ones (input_data : list string) (k : nat) (st st' : state) :
  ones_inv st -> sys_step input_data k st = Some st' -> ones_inv st'.
Proof.
  destruct st as [ths m]. unfold sys_step, ones_inv. simpl.
  intros (Hp & Hm & Ho) H.
  destruct (nth_error ths k) as [th|] eqn:K; [|discriminate].
  destruct (thread_step input_data th m) as [| |th' m'] eqn:T; try discriminate.
  inversion H; subst st'; clear H. simpl.
  assert (Hth : Forall (fun p => snd p = 1) (th_pending th)).
  { rewrite Forall_forall in Hp. apply Hp. eapply nth_error_In; eassumption. }
  destruct (thread_step_cases _ _ _ _ _ T)
    as [(p & rest & Ep & Ep' & ->) | (Ep & -> & s & _ & Ep')].
  - rewrite Ep in Hth. inversion Hth as [|? ? H1 Hrest]; subst.
    repeat split.
    + apply set_nth_Forall; assumption.
    + intros w l. rewrite push_back_at_find.
      destruct (String.eqb w (fst p)); [|apply Hm].
      intros E. inversion E; subst l. apply Forall_app. split.
      * unfold StdMap.get. destruct (StdMap.find (fst p) m) as [l0|] eqn:F;
          [eapply Hm; eassumption | constructor].
      * now repeat constructor.
    + now apply modify_ordered.
  - repeat split; try assumption.
    apply set_nth_Forall; [assumption|].
    rewrite Ep'. apply map_function_counts.
Qed.

Lemma run_ones (input_data : list string) (sched : list nat) :
  forall st st', ones_inv st -> run input_data sched st = Some st' -> ones_inv st'.
Proof.
  induction sched as [|k sched IH]; intros st st' I H; simpl in H.
  - now inversion H; subst.
  - destruct (sys_step input_data k st) as [st1|] eqn:S; [|discriminate].
    apply (IH st1); [|assumption]. eapply sys_step_ones; eassumption.
Qed.

Lemma initial_ones (input_data : list string) (hc : Z) :
  ones_inv (initial input_data hc).
Proof.
  unfold initial, ones_inv, map_threads. simpl. repeat split.
  - apply Forall_forall. intros th H. apply in_map_iff in H.
    destruct H as (r & <- & _). constructor.
  - discriminate.
  - constructor.
Qed.

(** ** The worker as a function and the worker as a thread *)

Section Worker.
Variable input_data : list string.

Lemma out_of_range_ulong (i : Z) :
  size input_data <= INT_MAX -> is_int i -> ~ 0 <= i < size input_data ->
  size input_data <= to_ulong i.
Proof.
  unfold is_int, INT_MIN, INT_MAX, to_ulong. intros Hs Hi Ho.
  destruct (Z_lt_le_dec i 0) as [Neg|Pos].
  - rewrite <- (Z.mod_add i 1 (2 ^ 64)) by lia.
    rewrite Z.mod_small by lia. lia.
  - rewrite Z.mod_small by lia. lia.
Qed.

Lemma worker_loop_out_of_range (n : nat) :
  forall i e m,
    size input_data <= INT_MAX -> INT_MIN <= i -> e <= INT_MAX ->
    e = i + Z.of_nat n ->
    (exists j, i <= j < e /\ ~ 0 <= j < size input_data) ->
    worker_loop input_data n i e m = Undefined.
Proof.
  induction n as [|n IH]; intros i e m Hs Hlo Hhi He (j & Hj & Hout); [lia|].
  simpl. destruct (Z.ltb_spec i e) as [_|F]; [|lia].
  destruct (vector_at input_data i) as [s| |] eqn:V.
  - apply vector_at_returns in V. destruct V as [V _].
    assert (In_i : 0 <= i < size input_data).
    { destruct (Z_lt_le_dec i 0); [|destruct (Z_lt_le_dec i (size input_data))]; try lia.
      - pose proof (out_of_range_ulong i Hs) as O.
        unfold is_int in O. lia.
      - pose proof (out_of_range_ulong i Hs) as O.
        unfold is_int in O. lia. }
    rewrite to_int_id by (unfold is_int, INT_MIN, INT_MAX in *; lia).
    apply IH; try lia. exists j. split; [|assumption].
    assert (j <> i) by (intros ->; contradiction). lia.
  - now apply vector_at_never_aborts in V.
  - reflexivity.
Qed.

Lemma worker_loop_in_range (n : nat) :
  forall i e m,
    size input_data <= INT_MAX -> 0 <= i -> e <= size input_data ->
    e = i + Z.of_nat n ->
    exists m', worker_loop input_data n i e m = Returns m'.
Proof.
  induction n as [|n IH]; intros i e m Hs Hlo Hhi He; simpl; [eauto|].
  destruct (Z.ltb_spec i e) as [_|F]; [|lia].
  destruct (vector_at_in_range input_data i) as (s & -> & _);
    [lia | unfold INT_MAX in *; lia |].
  rewrite to_int_id by (unfold is_int, INT_MIN, INT_MAX in *; lia).
  apply IH; lia.
Qed.

(** Fuel beyond [end - start] is never used. *)
Lemma worker_loop_fuel (n : nat) :
  forall i e m,
    INT_MIN <= i -> e <= INT_MAX -> (Z.to_nat (e - i) <= n)%nat ->
    worker_loop input_data n i e m
    = worker_loop input_data (Z.to_nat (e - i)) i e m.
Proof.
  induction n as [|n IH]; intros i e m Hlo Hhi Hn.
  - now replace (Z.to_nat (e - i)) with O by lia.
  - destruct (Z.ltb_spec i e) as [L|G].
    + replace (Z.to_nat (e - i)) with (S (Z.to_nat (e - (i + 1)))) by lia.
      simpl. destruct (Z.ltb_spec i e) as [_|F]; [|lia].
      destruct (vector_at input_data i); try reflexivity.
      rewrite to_int_id by (unfold is_int, INT_MIN, INT_MAX in *; lia).
      apply IH; lia.
    + replace (Z.to_nat (e - i)) with O by lia. simpl.
      destruct (Z.ltb_spec i e) as [F|_]; [lia | reflexivity].
Qed.

Lemma run_app (s1 s2 : list nat) :
  forall st,
    run input_data (s1 ++ s2) st =
    match run input_data s1 st with
    | Some st' => run input_data s2 st'
    | None => None
    end.
Proof.
  induction s1 as [|k s1 IH]; intros st; simpl; [reflexivity|].
  destruct (sys_step input_data k st); [apply IH | reflexivity].
Qed.

Lemma run_pushes (i e : Z) (pend : list (string * Z)) :
  forall m,
    run input_data (repeat O (List.length pend)) ([mkThread i e pend], m)
    = Some ([mkThread i e []], merge_all pend m).
Proof.
  induction pend as [|p pend IH]; intros m; simpl; [reflexivity|].
  unfold sys_step. simpl. apply IH.
Qed.

(** Alone, the thread does what the function does. *)
Lemma worker_loop_thread (n : nat) :
  forall i e m m',
    INT_MIN <= i -> e <= INT_MAX -> e = i + Z.of_nat n ->
    worker_loop input_data n i e m = Returns m' ->
    exists sched,
      run input_data sched ([mkThread i e []], m) = Some ([mkThread e e []], m').
Proof.
  induction n as [|n IH]; intros i e m m' Hlo Hhi He H.
  - simpl in H. inversion H; subst. exists []. simpl. now rewrite Z.add_0_r.
  - simpl in H. destruct (Z.ltb_spec i e) as [L|F]; [|lia].
    destruct (vector_at input_data i) as [s| |] eqn:V; try discriminate.
    rewrite to_int_id in H by (unfold is_int, INT_MIN, INT_MAX in *; lia).
    destruct (IH (i + 1) e _ m' ltac:(lia) ltac:(lia) ltac:(lia) H) as (sched & R).
    exists (O :: repeat O (List.length (map_function s)) ++ sched)%list.
    simpl run. unfold sys_step. simpl nth_error. unfold thread_step. simpl.
    destruct (Z.ltb_spec i e) as [_|F]; [|lia].
    rewrite V. simpl set_nth.
    rewrite to_int_id by (unfold is_int, INT_MIN, INT_MAX in *; lia).
    rewrite run_app, run_pushes.
    exact R.
Qed.

(** X19.  What [map_worker] returns when called alone is what the
    worker's thread, stepping alone from the same map, leaves in it
    when it ends. *)
Lemma map_worker_thread (m m' : imap) (start end_ : Z) :
  is_int start -> is_int end_ -> start <= end_ ->
  map_worker input_data m start end_ = Returns m' ->
  exists sched,
    run input_data sched ([mkThread start end_ []], m)
    = Some ([mkThread end_ end_ []], m').
Proof.
  unfold map_worker, is_int. intros Hs He Hle H.
  apply (worker_loop_thread (Z.to_nat (end_ - start)) start end_ m m'); try lia.
  exact H.
Qed.

End Worker.

(** ** The scenarios of the specification *)

Example scenario_A :
  final_result [ "This is sentence one."; "This is sentence two." ] 2
    [0; 1; 0; 1; 0; 1; 0; 1; 0; 1]%nat
  = Some [("is", 2); ("one", 1); ("sentence", 2); ("this", 2); ("two", 1)].
Proof. reflexivity. Qed.

Example scenario_B :
  final_result [] 4 [] = Some [] /\ main [] 4 [] = Some (mkExit EmptyString 0).
Proof. split; reflexivity. Qed.

Example scenario_C :
  map_function "Hello, hello!! HELLO" = [("hello", 1); ("hello", 1); ("hello", 1)] /\
  final_result [ "Hello, hello!! HELLO" ] 1 [0; 0; 0; 0]%nat = Some [("hello", 3)].
Proof. split; reflexivity. Qed.

Example sample_report :
  option_map stdout
    (main sample_input 1 (repeat O 28))
  = Some ("a: 2" ++ endl ++ "blue: 1" ++ endl ++ "ends: 2" ++ endl ++ "is: 4" ++ endl
          ++ "one: 1" ++ endl ++ "red: 1" ++ endl ++ "sentence: 4" ++ endl
          ++ "that: 2" ++ endl ++ "this: 4" ++ endl ++ "two: 1" ++ endl
          ++ "with: 2" ++ endl)%string.
Proof. reflexivity. Qed.

(* ================================================================== *)
(** * The claims *)

(** ** C1: the sum invariant *)

(** C1.  For every corpus and every word [w], with at least one worker,
    some schedule of the threads completes, and after every complete
    schedule the final aggregate holds under [w] the number of tokens
    of the corpus that are [w] once punctuation is stripped and letters
    are lowered; a word that does not occur has no entry.  The number of
    workers and the interleaving do not matter.  The bounds are those
    of the [int]s that carry the indices and the sums. *)
Theorem sum_invariant (input_data : list string) (hc : Z) (w : string) :
  size input_data <= INT_MAX ->
  1 <= hc <= INT_MAX ->
  Z.of_nat (Spec.occurrences w input_data) <= INT_MAX ->
  (exists sched fr, final_result input_data hc sched = Some fr) /\
  (forall sched fr,
      final_result input_data hc sched = Some fr ->
      StdMap.find w fr = Spec.total w input_data).
Proof.
  intros Hs Hh Ho. split.
  - now apply final_result_exists.
  - intros sched fr H.
    rewrite (final_result_run input_data hc Hs Hh sched fr H).
    now apply sequential_totals.
Qed.

Lemma sum_invariant_witness :
  exists fr,
    final_result small_input 2 small_sched = Some fr /\
    StdMap.find "a" fr = Some 2.
Proof.
  exists [(EmptyString, 1); ("a", 2); ("b", 2)]. split; [reflexivity|].
  refine (proj2 (sum_invariant small_input 2 "a" _ _ _) small_sched _ _).
  - vm_compute. discriminate.
  - unfold INT_MAX. lia.
  - vm_compute. discriminate.
  - reflexivity.
Defined.

(** ** C2: the Mapper *)

(** C2, as stated, fails: a token that is only punctuation is pushed
    as the pair of the empty word. *)
Lemma punctuation_token_emitted :
  map_function "a - B." = [("a", 1); (EmptyString, 1); ("b", 1)] /\
  Spec.mapper "a - B." = [("a", 1); ("b", 1)] /\
  map_function "a - B." <> Spec.mapper "a - B.".
Proof. repeat split. discriminate. Qed.

(** C2, amended.  The Mapper splits the record on whitespace and pushes
    one pair (word, 1) for every token, in order, the word being the
    token without its punctuation and in lower case, the empty word
    included; the pairs with a non-empty word are those of the
    specification's Mapper. *)
Theorem mapper_emits_every_token (input : string) :
  map_function input
  = List.map (fun token => (Spec.normalize token, 1)) (Spec.tokens input) /\
  Spec.mapper input
  = List.filter (fun p => Spec.nonempty (fst p)) (map_function input).
Proof.
  split; [apply map_function_tokens|].
  rewrite map_function_tokens. unfold Spec.mapper.
  induction (Spec.tokens input) as [|t l IH]; simpl; [reflexivity|].
  destruct (Spec.nonempty (Spec.normalize t)); simpl; now rewrite IH.
Qed.

(** ** C3: the partition *)

(** C3.  For a vector of [sz] records and [nt >= 1] threads the loop
    computes exactly [nt] ranges; the first starts at 0, each ends
    where the next starts, the last ends at [sz]; so every index below
    [sz] lies in exactly one range and no range holds another index.
    The first [nt - 1] ranges have [sz / nt] indices, the last one has
    the remainder in addition. *)
Theorem partition_exact (sz nt : Z) :
  0 <= sz < 2 ^ 64 ->
  1 <= nt <= INT_MAX ->
  List.length (ranges sz nt) = Z.to_nat nt /\
  (forall i, 0 <= i < nt ->
     nth_error (ranges sz nt) (Z.to_nat i) = Some (range_of sz nt i)) /\
  fst (range_of sz nt 0) = 0 /\
  (forall i, 0 <= i < nt - 1 ->
     snd (range_of sz nt i) = fst (range_of sz nt (i + 1))) /\
  snd (range_of sz nt (nt - 1)) = sz /\
  (forall i, 0 <= i < nt -> fst (range_of sz nt i) <= snd (range_of sz nt i)) /\
  (forall j, 0 <= j < sz ->
     exists i, 0 <= i < nt /\ in_range j (range_of sz nt i) /\
       forall i', 0 <= i' < nt -> in_range j (range_of sz nt i') -> i' = i) /\
  (forall i j, 0 <= i < nt -> in_range j (range_of sz nt i) -> 0 <= j < sz) /\
  (forall i, 0 <= i < nt - 1 -> range_size (range_of sz nt i) = sz / nt) /\
  range_size (range_of sz nt (nt - 1)) = sz / nt + sz mod nt.
Proof.
  intros Hsz Hnt. unfold in_range, range_size, range_of. simpl.
  pose proof (quotient_bounds sz nt Hsz Hnt) as (Q0 & Q1 & Q2).
  split; [apply ranges_length|].
  split; [intros i Hi; now apply ranges_nth|].
  split; [rewrite range_start_eq by lia; lia|].
  split; [intros i Hi; now apply range_chain|].
  split; [rewrite range_end_eq by lia; now rewrite Z.eqb_refl|].
  split; [intros i Hi; now apply range_le|].
  split.
  { intros j Hj. destruct (range_cover sz nt Hsz Hnt j Hj) as (i & Hi & Hin).
    exists i. split; [assumption|]. split; [assumption|].
    intros i' Hi' Hin'. now apply (range_disjoint sz nt Hsz Hnt i' i j). }
  split.
  { intros i j Hi Hin. pose proof (range_le sz nt Hsz Hnt i Hi). lia. }
  split.
  { intros i Hi. rewrite range_start_eq, range_end_eq by lia.
    destruct (Z.eqb_spec i (nt - 1)); lia. }
  rewrite range_start_eq, range_end_eq by lia. rewrite Z.eqb_refl.
  pose proof (Z.div_mod sz nt ltac:(lia)). lia.
Qed.

Lemma partition_exact_witness :
  ranges 7 4 = [(0, 1); (1, 2); (2, 3); (3, 7)] /\
  range_size (range_of 7 4 3) = 7 / 4 + 7 mod 4.
Proof.
  split; [reflexivity|].
  assert (H1 : 0 <= 7 < 2 ^ 64) by lia.
  assert (H2 : 1 <= 4 <= INT_MAX) by (unfold INT_MAX; lia).
  destruct (partition_exact 7 4 H1 H2) as (_ & _ & _ & _ & _ & _ & _ & _ & _ & H).
  exact H.
Defined.

(** ** C4: zero detected parallelism *)

(** C4.  With a detected parallelism of 0 the spawning loop does not
    run: no thread is started, and [main] prints an empty report and
    returns 0, whatever the corpus. *)
Theorem zero_parallelism_silent (input_data : list string) :
  map_threads input_data 0 = [] /\
  main input_data 0 [] = Some (mkExit EmptyString 0).
Proof. split; reflexivity. Qed.

(** ** C5: fewer records than threads *)

(** C5, as stated, fails: with one record and two threads the first
    range is the empty one and the last range holds the record. *)
Lemma last_range_carries_records :
  1 < 2 /\ ranges 1 2 = [(0, 0); (0, 1)] /\ ~ empties_trail 1 2.
Proof.
  split; [lia|]. split; [reflexivity|].
  intros H.
  assert (E0 : empty_range (range_of 1 2 0)) by (vm_compute; discriminate).
  specialize (H 0 1 ltac:(lia) ltac:(lia) E0).
  vm_compute in H. apply H. reflexivity.
Qed.

(** C5, amended.  With fewer records than threads every range but the
    last is empty, and the last range is the whole vector. *)
Theorem leading_ranges_empty (sz nt : Z) :
  0 <= sz < nt ->
  nt <= INT_MAX ->
  (forall i, 0 <= i < nt - 1 -> range_of sz nt i = (0, 0)) /\
  range_of sz nt (nt - 1) = (0, sz).
Proof.
  intros Hsz Hnt.
  assert (Hsz' : 0 <= sz < 2 ^ 64) by (unfold INT_MAX in *; lia).
  assert (Hnt' : 1 <= nt <= INT_MAX) by lia.
  assert (Q : sz / nt = 0) by (apply Z.div_small; lia).
  unfold range_of. split.
  - intros i Hi. rewrite range_start_eq, range_end_eq by lia.
    destruct (Z.eqb_spec i (nt - 1)); [lia|]. rewrite Q. f_equal; lia.
  - rewrite range_start_eq, range_end_eq by lia.
    rewrite Z.eqb_refl, Q. f_equal. lia.
Qed.

Lemma leading_ranges_empty_witness :
  range_of 1 2 0 = (0, 0) /\ range_of 1 2 (2 - 1) = (0, 1).
Proof.
  assert (H1 : 0 <= 1 < 2) by lia.
  assert (H2 : 2 <= INT_MAX) by (unfold INT_MAX; lia).
  destruct (leading_ranges_empty 1 2 H1 H2) as [A B].
  split; [apply A; lia | exact B].
Defined.

(** ** C6: order independence *)

(** C6.  Two sequences of insertions that are permutations of each
    other give, after the reduce phase, the same final aggregate: the
    same keys with the same totals. *)
Theorem order_independence (e1 e2 : list (string * Z)) :
  Permutation e1 e2 ->
  reduce_phase (merge_all e1 StdMap.empty)
  = reduce_phase (merge_all e2 StdMap.empty).
Proof. apply final_perm. Qed.

Lemma order_independence_witness :
  reduce_phase (merge_all [("b", 1); ("a", 1); ("b", 1)] StdMap.empty)
  = reduce_phase (merge_all [("a", 1); ("b", 1); ("b", 1)] StdMap.empty).
Proof.
  apply order_independence. apply perm_swap.
Defined.

(** X17.  Any two complete schedules of the threads end in the same
    final aggregate. *)
Corollary schedule_independence (input_data : list string) (hc : Z)
  (sched1 sched2 : list nat) (fr1 fr2 : fmap) :
  size input_data <= INT_MAX -> 1 <= hc <= INT_MAX ->
  final_result input_data hc sched1 = Some fr1 ->
  final_result input_data hc sched2 = Some fr2 ->
  fr1 = fr2.
Proof.
  intros Hs Hh R1 R2.
  rewrite (final_result_run input_data hc Hs Hh sched1 fr1 R1).
  now rewrite (final_result_run input_data hc Hs Hh sched2 fr2 R2).
Qed.

(** ** C7: the report *)

Lemma sorted_nodup (l : list string) : Sorted StdMap.key_lt l -> NoDup l.
Proof.
  induction l as [|k l IH]; intros S; constructor.
  - pose proof (sorted_above k l S) as A. rewrite Forall_forall in A.
    intros I. apply (key_lt_irrefl k). now apply A.
  - apply IH. now inversion S.
Qed.

(** C7.  When [main] completes it has printed, for the entries of the
    final aggregate in their order, the word, a colon and a space, the
    count in decimal and a line end; the words are strictly ascending
    in the byte-wise lexicographic order, so each appears once; and
    [main] returns 0. *)
Theorem report_sorted (input_data : list string) (hc : Z) (sched : list nat)
  (out : exit) :
  main input_data hc sched = Some out ->
  exists fr,
    final_result input_data hc sched = Some fr /\
    stdout out
    = String.concat EmptyString
        (List.map (fun e => (fst e ++ ": " ++ show_int (snd e)) ++ endl)%string fr) /\
    Sorted StdMap.key_lt (StdMap.keys fr) /\
    NoDup (StdMap.keys fr) /\
    exit_code out = 0.
Proof.
  unfold main. intros H.
  destruct (final_result input_data hc sched) as [fr|] eqn:F; [|discriminate].
  inversion H; subst out; clear H. exists fr.
  assert (S : Sorted StdMap.key_lt (StdMap.keys fr)).
  { unfold final_result in F.
    destruct (run input_data sched (initial input_data hc)) as [[ths m]|] eqn:R;
      [|discriminate].
    destruct (forallb finished ths); [|discriminate].
    inversion F; subst fr.
    apply final_ordered.
    now destruct (run_ones input_data sched _ _ (initial_ones input_data hc) R)
      as (_ & _ & O). }
  split; [reflexivity|]. split; [|split; [exact S|split; [now apply sorted_nodup|reflexivity]]].
  simpl. unfold report. f_equal. apply map_ext.
  intros e. unfold print_entry. now rewrite !append_assoc.
Qed.

Lemma report_sorted_witness :
  exists fr,
    final_result small_input 2 small_sched = Some fr /\
    StdMap.keys fr = [EmptyString; "a"; "b"] /\
    Sorted StdMap.key_lt (StdMap.keys fr).
Proof.
  destruct (report_sorted small_input 2 small_sched
              (mkExit (String.concat EmptyString [": 1" ++ endl; "a: 2" ++ endl; "b: 2" ++ endl]) 0)
              eq_refl)
    as (fr & F & _ & S & _).
  exists fr. split; [exact F|]. split; [|exact S].
  vm_compute in F. now inversion F.
Defined.

(** ** C8: the Mapper is a function of its argument *)

(** C8.  Whenever two workers, in whatever states of their own and of
    the shared map, call the Mapper on the same record, both receive
    the same sequence of pairs, the one [map_function] gives for that
    record (with any fuel beyond the record's length), and the call
    leaves the shared map as it was. *)
Theorem mapper_pure (input_data : list string)
  (th1 th2 th1' th2' : thread) (m1 m2 m1' m2' : imap) :
  th_pending th1 = [] -> th_pending th2 = [] ->
  th_i th1 = th_i th2 ->
  thread_step input_data th1 m1 = Next th1' m1' ->
  thread_step input_data th2 m2 = Next th2' m2' ->
  m1' = m1 /\ m2' = m2 /\
  th_pending th1' = th_pending th2' /\
  exists s,
    vector_at input_data (th_i th1) = Returns s /\
    th_pending th1' = map_function s /\
    forall fuel, (String.length s < fuel)%nat -> map_loop fuel s [] = map_function s.
Proof.
  intros P1 P2 Ei T1 T2.
  destruct (thread_step_cases _ _ _ _ _ T1)
    as [(p & rest & E & _) | (_ & -> & s1 & V1 & E1)]; [congruence|].
  destruct (thread_step_cases _ _ _ _ _ T2)
    as [(p & rest & E & _) | (_ & -> & s2 & V2 & E2)]; [congruence|].
  rewrite <- Ei in V2. rewrite V1 in V2. inversion V2; subst s2.
  repeat split; try congruence.
  exists s1. repeat split; try assumption.
  intros fuel. apply map_loop_fuel.
Qed.

Lemma mapper_pure_witness :
  th_pending (mkThread 1 2 (map_function "This is sentence one."))
  = th_pending (mkThread 1 4 (map_function "This is sentence one.")).
Proof.
  refine (proj1 (proj2 (proj2
    (mapper_pure sample_input (mkThread 0 2 []) (mkThread 0 4 []) _ _
       StdMap.empty [("is", [1])] StdMap.empty [("is", [1])]
       eq_refl eq_refl eq_refl eq_refl eq_refl)))).
Defined.

(** ** C9: a range that leaves the vector

    [map_worker] reads [input_data[i]] through [operator[]], and
    neither it nor [main] tests an index.  What a run does once an
    index leaves the vector is left undefined by C++: it depends on
    what lies in memory next to the vector and on how the library was
    built.  The embedding can say where the undefined access is
    reached, below, and that [main] never hands out such a range; how
    the run then ends it cannot say. *)

(** A range with an index outside the vector brings the worker to an
    access that is undefined. *)
Lemma worker_leaves_vector (input_data : list string) (m : imap) (start end_ : Z) :
  size input_data <= INT_MAX ->
  is_int start -> is_int end_ ->
  (exists i, start <= i < end_ /\ ~ 0 <= i < size input_data) ->
  map_worker input_data m start end_ = Undefined.
Proof.
  unfold map_worker, is_int. intros Hs Hstart Hend (i & Hi & Hout).
  apply worker_loop_out_of_range; try lia.
  exists i. split; [lia | assumption].
Qed.

Example worker_leaves_vector_at_4 :
  map_worker sample_input StdMap.empty 3 5 = Undefined.
Proof. reflexivity. Qed.

(** X18.  The ranges [main] hands out are inside the vector: no run of
    [main] reaches an access out of range. *)
Corollary main_in_range (input_data : list string) (hc : Z) (sched : list nat)
  (ths : list thread) (m : imap) :
  size input_data <= INT_MAX -> 1 <= hc <= INT_MAX ->
  run input_data sched (initial input_data hc) = Some (ths, m) ->
  Forall (fun th => thread_step input_data th m <> Crashed) ths.
Proof.
  intros Hs Hh R.
  destruct (run_preserves input_data Hs _ sched _ _
              (initial_inv input_data hc Hs Hh) R) as [W _].
  simpl in W. eapply Forall_impl; [|exact W].
  intros th Wth. now apply thread_step_safe.
Qed.

(** ** C10: every count is 1 *)

(** C10.  In every state a run of [main] reaches, each list of the
    intermediate map holds only ones; so the reduce phase stores under
    each word the length of its list, as long as that length is an
    [int]. *)
Theorem counts_are_one (input_data : list string) (hc : Z) (sched : list nat)
  (ths : list thread) (m : imap) (w : string) (l : list Z) :
  run input_data sched (initial input_data hc) = Some (ths, m) ->
  StdMap.find w m = Some l ->
  Forall (fun x => x = 1) l /\
  (Z.of_nat (List.length l) <= INT_MAX ->
   StdMap.find w (reduce_phase m) = Some (Z.of_nat (List.length l))).
Proof.
  intros R F.
  destruct (run_ones input_data sched _ _ (initial_ones input_data hc) R)
    as (_ & Hm & Ho). simpl in Hm, Ho.
  pose proof (Hm w l F) as Hl. split; [exact Hl|].
  intros B. rewrite reduce_phase_find by assumption. rewrite F. simpl.
  now rewrite reduce_function_ones.
Qed.

Lemma counts_are_one_witness :
  Forall (fun x => x = 1) [1; 1] /\
  (Z.of_nat (List.length [1; 1]) <= INT_MAX ->
   StdMap.find "a" (reduce_phase [(EmptyString, [1]); ("a", [1; 1]); ("b", [1; 1])])
   = Some (Z.of_nat (List.length [1; 1]))).
Proof.
  exact (counts_are_one small_input 2 small_sched
           [mkThread 1 1 []; mkThread 2 2 []]
           [(EmptyString, [1]); ("a", [1; 1]); ("b", [1; 1])] "a" [1; 1]
           eq_refl eq_refl).
Defined.

(* ================================================================== *)
(** * Further properties of the code *)

(** ** Characters *)

Ltac each_char c :=
  destruct c as [[] [] [] [] [] [] [] []]; try reflexivity; try discriminate.

Lemma tolower_clean (c : ascii) :
  isspace c = false -> ispunct c = false -> clean_char (tolower c) = true.
Proof. each_char c. Qed.

Lemma isspace_tolower (c : ascii) : isspace (tolower c) = isspace c.
Proof. each_char c. Qed.

Lemma ispunct_tolower (c : ascii) : ispunct (tolower c) = ispunct c.
Proof. each_char c. Qed.

Lemma tolower_idem (c : ascii) : tolower (tolower c) = tolower c.
Proof. each_char c. Qed.

Lemma tolower_lower (c : ascii) : isupper c = false -> tolower c = c.
Proof. unfold tolower. now intros ->. Qed.

Lemma ispunct_not_space (c : ascii) : ispunct c = true -> isspace c = false.
Proof. each_char c. Qed.

Lemma clean_char_parts (c : ascii) :
  clean_char c = true ->
  isspace c = false /\ ispunct c = false /\ isupper c = false.
Proof.
  unfold clean_char. destruct (isspace c), (ispunct c), (isupper c);
    simpl; intros H; try discriminate; auto.
Qed.

(** ** The Mapper: what it emits *)

Lemma all_chars_app (p : ascii -> bool) (a b : string) :
  all_chars p (a ++ b) = all_chars p a && all_chars p b.
Proof.
  induction a as [|c a IH]; simpl; [reflexivity|].
  now rewrite IH, andb_assoc.
Qed.

Lemma all_chars_impl (p q : ascii -> bool) (s : string) :
  (forall c, p c = true -> q c = true) ->
  all_chars p s = true -> all_chars q s = true.
Proof.
  intros Hpq. induction s as [|c s IH]; simpl; [reflexivity|].
  intros H. apply andb_prop in H. destruct H as [H1 H2].
  now rewrite (Hpq c H1), IH.
Qed.

Lemma transform_app (f : ascii -> ascii) (a b : string) :
  transform f (a ++ b) = (transform f a ++ transform f b)%string.
Proof. induction a as [|c a IH]; simpl; [reflexivity | now rewrite IH]. Qed.

Lemma remove_if_app (p : ascii -> bool) (a b : string) :
  remove_if p (a ++ b) = (remove_if p a ++ remove_if p b)%string.
Proof.
  induction a as [|c a IH]; simpl; [reflexivity|].
  destruct (p c); simpl; now rewrite IH.
Qed.

(** Tokens are never empty and hold no whitespace. *)
Lemma split_ws_tokens (s : string) :
  forall cur,
    all_chars not_space cur = true ->
    Forall (fun t => t <> EmptyString /\ all_chars not_space t = true)
      (Spec.split_ws cur s).
Proof.
  induction s as [|c s IH]; intros cur H; simpl.
  - destruct cur; constructor; [|constructor]. split; [discriminate | assumption].
  - destruct (isspace c) eqn:E.
    + destruct cur; [now apply IH|].
      constructor; [split; [discriminate | assumption] | now apply IH].
    + apply IH. rewrite all_chars_app, H. simpl. unfold not_space. now rewrite E.
Qed.

Lemma normalize_clean (t : string) :
  all_chars not_space t = true ->
  all_chars clean_char (Spec.normalize t) = true.
Proof.
  rewrite <- remove_if_transform_normalize.
  induction t as [|c t IH]; simpl; [reflexivity|].
  intros H. apply andb_prop in H. destruct H as [H1 H2].
  unfold not_space in H1. apply negb_true_iff in H1.
  destruct (ispunct c) eqn:P; simpl; [now apply IH|].
  now rewrite tolower_clean, IH.
Qed.

Lemma normalize_fixed (w : string) :
  all_chars clean_char w = true -> Spec.normalize w = w.
Proof.
  rewrite <- remove_if_transform_normalize.
  induction w as [|c w IH]; simpl; [reflexivity|].
  intros H. apply andb_prop in H. destruct H as [H1 H2].
  apply clean_char_parts in H1. destruct H1 as (_ & P & U).
  rewrite P. simpl. now rewrite tolower_lower, IH.
Qed.

Lemma split_ws_word (w : string) :
  forall cur,
    all_chars not_space w = true ->
    Spec.split_ws cur w = opt_token (cur ++ w).
Proof.
  induction w as [|c w IH]; intros cur H; simpl.
  - rewrite append_nil_r. destruct cur; reflexivity.
  - apply andb_prop in H. destruct H as [H1 H2].
    unfold not_space in H1. apply negb_true_iff in H1. rewrite H1.
    rewrite IH by assumption. now rewrite append_assoc.
Qed.

Lemma split_ws_nil (s : string) :
  forall cur,
    Spec.split_ws cur s = [] <-> cur = EmptyString /\ all_chars isspace s = true.
Proof.
  induction s as [|c s IH]; intros cur; simpl.
  - destruct cur; split; intros H; try discriminate; auto.
    destruct H; discriminate.
  - destruct (isspace c) eqn:E; simpl.
    + destruct cur; [apply IH|].
      split; [discriminate | intros [H _]; discriminate].
    + rewrite IH. split; intros [H1 H2]; [|discriminate].
      destruct cur; discriminate.
Qed.

Lemma split_ws_app (s1 : string) :
  forall cur c s2,
    isspace c = true ->
    Spec.split_ws cur (s1 ++ String c s2)
    = (Spec.split_ws cur s1 ++ Spec.split_ws EmptyString s2)%list.
Proof.
  induction s1 as [|d s1 IH]; intros cur c s2 H; simpl.
  - rewrite H. destruct cur; reflexivity.
  - destruct (isspace d).
    + destruct cur; [now apply IH|]. simpl. f_equal. now apply IH.
    + now apply IH.
Qed.

Lemma split_ws_lower (s : string) :
  forall cur,
    Spec.split_ws (transform tolower cur) (transform tolower s)
    = List.map (transform tolower) (Spec.split_ws cur s).
Proof.
  induction s as [|c s IH]; intros cur; simpl.
  - destruct cur; reflexivity.
  - rewrite isspace_tolower. destruct (isspace c).
    + destruct cur; simpl; [apply (IH EmptyString)|].
      f_equal. apply (IH EmptyString).
    + rewrite <- IH, transform_app. reflexivity.
Qed.

Lemma normalize_lower (t : string) :
  Spec.normalize (transform tolower t) = Spec.normalize t.
Proof.
  rewrite <- !remove_if_transform_normalize.
  induction t as [|c t IH]; simpl; [reflexivity|].
  rewrite ispunct_tolower. destruct (ispunct c); simpl; [exact IH|].
  now rewrite tolower_idem, IH.
Qed.

Lemma normalize_strip (t : string) :
  Spec.normalize (remove_if ispunct t) = Spec.normalize t.
Proof.
  rewrite <- !remove_if_transform_normalize.
  induction t as [|c t IH]; simpl; [reflexivity|].
  destruct (ispunct c) eqn:P; simpl; [exact IH|].
  rewrite P. simpl. now rewrite IH.
Qed.

Lemma normalize_nonempty (t : string) :
  Spec.nonempty (Spec.normalize t) = Spec.nonempty (remove_if ispunct t).
Proof.
  rewrite <- remove_if_transform_normalize.
  destruct (remove_if ispunct t); reflexivity.
Qed.

Lemma filter_opt_token (cur : string) :
  List.map Spec.normalize (opt_token (remove_if ispunct cur))
  = List.filter Spec.nonempty (List.map Spec.normalize (opt_token cur)).
Proof.
  destruct cur as [|c cur]; [reflexivity|].
  cbn [opt_token List.map List.filter].
  rewrite normalize_nonempty, <- (normalize_strip (String c cur)).
  destruct (remove_if ispunct (String c cur)); reflexivity.
Qed.

Lemma split_ws_opt (cur : string) (c : ascii) (s : string) :
  isspace c = true ->
  Spec.split_ws cur (String c s)
  = (opt_token cur ++ Spec.split_ws EmptyString s)%list.
Proof. intros H. simpl. rewrite H. destruct cur; reflexivity. Qed.

Lemma split_ws_strip (s : string) :
  forall cur,
    List.map Spec.normalize
      (Spec.split_ws (remove_if ispunct cur) (remove_if ispunct s))
    = List.filter Spec.nonempty (List.map Spec.normalize (Spec.split_ws cur s)).
Proof.
  induction s as [|c s IH]; intros cur.
  - simpl remove_if.
    change (Spec.split_ws (remove_if ispunct cur) EmptyString)
      with (opt_token (remove_if ispunct cur)).
    change (Spec.split_ws cur EmptyString) with (opt_token cur).
    apply filter_opt_token.
  - destruct (isspace c) eqn:E.
    + assert (P : ispunct c = false).
      { destruct (ispunct c) eqn:P; [|reflexivity].
        apply ispunct_not_space in P. congruence. }
      simpl remove_if. rewrite P.
      rewrite !split_ws_opt by assumption.
      rewrite !map_app, filter_app, filter_opt_token. f_equal.
      apply (IH EmptyString).
    + destruct (ispunct c) eqn:P.
      * simpl. rewrite P, E. rewrite <- IH, remove_if_app. simpl. rewrite P.
        now rewrite append_nil_r.
      * simpl. rewrite P, E. simpl. rewrite E.
        rewrite <- IH, remove_if_app. simpl. now rewrite P.
Qed.

Lemma emitted_clean (input : string) :
  Forall (fun p => all_chars clean_char (fst p) = true) (map_function input).
Proof.
  rewrite map_function_tokens. apply Forall_forall. intros p Hp.
  apply in_map_iff in Hp. destruct Hp as (t & <- & Ht).
  pose proof (split_ws_tokens input EmptyString eq_refl) as F.
  rewrite Forall_forall in F. destruct (F t Ht) as [_ Hs].
  now apply normalize_clean.
Qed.

(** X1.  Every word the Mapper emits is free of whitespace, of
    punctuation and of upper-case letters. *)
Theorem mapper_words_clean (input : string) :
  Forall (fun p => all_chars clean_char (fst p) = true) (map_function input).
Proof. apply emitted_clean. Qed.

(** X2.  The Mapper emits nothing exactly when the record holds only
    whitespace (the empty record included). *)
Theorem mapper_blank (input : string) :
  map_function input = [] <-> all_chars isspace input = true.
Proof.
  rewrite map_function_tokens. unfold Spec.tokens. split.
  - intros H. apply map_eq_nil in H. now apply split_ws_nil in H.
  - intros H. destruct (split_ws_nil input EmptyString) as [_ B].
    now rewrite B.
Qed.

(** X3.  The pairs of two records joined by a whitespace character
    are the pairs of the first followed by the pairs of the second. *)
Theorem mapper_concat (s1 s2 : string) (c : ascii) :
  isspace c = true ->
  map_function (s1 ++ String c s2) = (map_function s1 ++ map_function s2)%list.
Proof.
  intros H. rewrite !map_function_tokens. unfold Spec.tokens.
  now rewrite split_ws_app, map_app.
Qed.

Lemma mapper_concat_witness :
  map_function ("Red fish," ++ String " " "blue FISH.")
  = (map_function "Red fish," ++ map_function "blue FISH.")%list.
Proof. apply mapper_concat. reflexivity. Defined.

(** X4.  The Mapper does not see case: lowering the record first
    changes nothing. *)
Theorem mapper_case_insensitive (input : string) :
  map_function (transform tolower input) = map_function input.
Proof.
  rewrite !map_function_tokens. unfold Spec.tokens.
  change EmptyString with (transform tolower EmptyString) at 1.
  rewrite split_ws_lower, map_map. apply map_ext.
  intros t. unfold emit. now rewrite normalize_lower.
Qed.

(** X5.  An emitted word is a fixed point: given back to the Mapper as
    a record, a non-empty emitted word comes out as itself, once. *)
Theorem mapper_fixpoint (input : string) :
  Forall (fun p => fst p = EmptyString \/ map_function (fst p) = [p])
    (map_function input).
Proof.
  pose proof (emitted_clean input) as C.
  pose proof (map_function_counts input) as O.
  rewrite Forall_forall in *. intros [w n] Hp.
  specialize (C _ Hp). specialize (O _ Hp). simpl in *. subst n.
  destruct w as [|c w]; [now left|]. right.
  rewrite map_function_tokens. unfold Spec.tokens.
  rewrite split_ws_word.
  - simpl. unfold emit. now rewrite normalize_fixed.
  - eapply all_chars_impl; [|exact C].
    intros d Hd. apply clean_char_parts in Hd. destruct Hd as (S & _).
    unfold not_space. now rewrite S.
Qed.

(** X6.  Stripping the punctuation from the record before mapping
    gives the pairs of the record itself without those of the empty
    word: tokens that are only punctuation vanish, nothing else
    changes. *)
Theorem mapper_prestrip (input : string) :
  map_function (remove_if ispunct input)
  = List.filter (fun p => Spec.nonempty (fst p)) (map_function input).
Proof.
  rewrite !map_function_tokens. unfold Spec.tokens.
  assert (E : forall l, List.map emit l
                        = List.map (fun w => (w, 1)) (List.map Spec.normalize l)).
  { intros l. now rewrite map_map. }
  rewrite !E.
  change EmptyString with (remove_if ispunct EmptyString) at 1.
  rewrite split_ws_strip.
  induction (List.map Spec.normalize (Spec.split_ws EmptyString input))
    as [|w l IH]; simpl; [reflexivity|].
  destruct (Spec.nonempty w); simpl; now rewrite IH.
Qed.

(** ** [reduce_function] on counts *)

Lemma sum_loop_exact (l : list Z) :
  Forall (fun x => 0 <= x) l ->
  forall acc, 0 <= acc -> acc + zsum l <= INT_MAX ->
    fold_left (fun acc x => to_int (acc + x)) l acc = acc + zsum l.
Proof.
  induction 1 as [|x l Hx Hl IH]; intros acc H0 H1; simpl in *; [lia|].
  assert (0 <= zsum l).
  { clear - Hl. induction Hl; simpl; lia. }
  rewrite to_int_id by (unfold is_int, INT_MIN, INT_MAX in *; lia).
  rewrite IH by lia. lia.
Qed.

(** X7.  On counts (integers that are not negative) whose sum is an
    [int], [reduce_function] returns the exact sum; on the empty
    vector that is 0. *)
Theorem reduce_function_sum (values : list Z) :
  Forall (fun x => 0 <= x) values ->
  zsum values <= INT_MAX ->
  reduce_function values = zsum values.
Proof.
  intros H B. unfold reduce_function. now rewrite sum_loop_exact by (auto; lia).
Qed.

Lemma reduce_function_sum_witness :
  reduce_function [3; 0; 4] = zsum [3; 0; 4].
Proof.
  apply reduce_function_sum.
  - repeat constructor; lia.
  - vm_compute. discriminate.
Defined.

(** ** The intermediate map under pushes *)

(** X8.  After a sequence of pushes the list under a word is the list
    it had before followed by the counts pushed for that word, in the
    order of the pushes; a word for which nothing was pushed is as it
    was, absent if it was absent. *)
Theorem pushes_per_key (w : string) (pairs : list (string * Z)) (m : imap) :
  StdMap.find w (merge_all pairs m) =
  match values_of w pairs with
  | [] => StdMap.find w m
  | vs => Some (StdMap.get [] w m ++ vs)%list
  end.
Proof. apply merge_all_find. Qed.

Lemma stored_push (p : string * Z) (m : imap) :
  stored (push_back_at p m) = S (stored m).
Proof.
  unfold push_back_at, stored.
  induction m as [|[k v] m IH]; simpl; [reflexivity|].
  destruct (String.compare (fst p) k); simpl.
  - rewrite length_app. simpl. lia.
  - reflexivity.
  - rewrite IH. lia.
Qed.

Lemma stored_merge (pairs : list (string * Z)) :
  forall m, stored (merge_all pairs m) = (List.length pairs + stored m)%nat.
Proof.
  unfold merge_all.
  induction pairs as [|p pairs IH]; intros m; simpl; [reflexivity|].
  rewrite IH, stored_push. lia.
Qed.

(** X9.  Every push stores exactly one more integer: after a sequence
    of pushes the map holds as many integers more as pairs were
    pushed; none is overwritten, none is dropped. *)
Theorem pushes_stored (pairs : list (string * Z)) (m : imap) :
  stored (merge_all pairs m) = (List.length pairs + stored m)%nat.
Proof. apply stored_merge. Qed.

Lemma keys_modify {V : Type} (k : string) (dflt : V) (f : V -> V)
  (m : StdMap.t V) (x : string) :
  In x (StdMap.keys (StdMap.modify k dflt f m)) <-> x = k \/ In x (StdMap.keys m).
Proof.
  unfold StdMap.keys.
  induction m as [|[k0 v0] m IH]; simpl.
  - intuition.
  - destruct (String.compare k k0) eqn:E; simpl.
    + apply compare_eq in E. subst k0. intuition.
    + intuition.
    + rewrite IH. intuition.
Qed.

Lemma keys_merge (pairs : list (string * Z)) (x : string) :
  forall m,
    In x (StdMap.keys (merge_all pairs m))
    <-> In x (List.map fst pairs) \/ In x (StdMap.keys m).
Proof.
  unfold merge_all.
  induction pairs as [|p pairs IH]; intros m; simpl; [intuition|].
  rewrite IH. unfold push_back_at. rewrite keys_modify. intuition.
Qed.

Lemma all_ones_push (p : string * Z) (m : imap) :
  snd p = 1 -> all_ones m -> all_ones (push_back_at p m).
Proof.
  unfold all_ones, push_back_at. intros Hp.
  induction m as [|[k v] m IH]; simpl; intros H.
  - repeat constructor. assumption.
  - inversion H as [|? ? Hv Hm]; subst. simpl in Hv.
    destruct (String.compare (fst p) k).
    + constructor; [simpl | assumption].
      apply Forall_app. split; [assumption | now repeat constructor].
    + constructor; [simpl; now repeat constructor | assumption].
    + constructor; [assumption | now apply IH].
Qed.

Lemma all_ones_merge (pairs : list (string * Z)) :
  Forall (fun p => snd p = 1) pairs ->
  forall m, all_ones m -> all_ones (merge_all pairs m).
Proof.
  unfold merge_all.
  induction 1 as [|p pairs Hp _ IH]; intros m Hm; simpl; [assumption|].
  apply IH. now apply all_ones_push.
Qed.

Lemma reduce_entries_sum (m : imap) :
  all_ones m -> Z.of_nat (stored m) <= INT_MAX ->
  zsum (List.map snd (List.map reduce_entry m)) = Z.of_nat (stored m).
Proof.
  unfold all_ones, stored.
  induction 1 as [|[k v] m Hv _ IH]; simpl; intros B; [reflexivity|].
  simpl in Hv. rewrite reduce_function_ones by (auto; lia).
  rewrite IH by lia. lia.
Qed.

Lemma corpus_pairs_ones (input_data : list string) :
  Forall (fun p => snd p = 1) (flat_map map_function input_data).
Proof.
  rewrite corpus_pairs. apply Forall_forall. intros p Hp.
  apply in_map_iff in Hp. now destruct Hp as (t & <- & _).
Qed.

Lemma corpus_pairs_words (input_data : list string) :
  List.map fst (flat_map map_function input_data) = Spec.words input_data.
Proof.
  rewrite corpus_pairs, map_map. reflexivity.
Qed.

Lemma words_clean (input_data : list string) (w : string) :
  In w (Spec.words input_data) -> all_chars clean_char w = true.
Proof.
  unfold Spec.words. intros H. apply in_map_iff in H.
  destruct H as (t & <- & Ht). apply in_flat_map in Ht.
  destruct Ht as (r & _ & Ht).
  pose proof (split_ws_tokens r EmptyString eq_refl) as F.
  rewrite Forall_forall in F. destruct (F t Ht) as [_ Hs].
  now apply normalize_clean.
Qed.

Lemma final_keys (input_data : list string) (w : string) :
  In w (StdMap.keys
          (reduce_phase (merge_all (flat_map map_function input_data) StdMap.empty)))
  <-> In w (Spec.words input_data).
Proof.
  rewrite reduce_phase_map by (apply merge_all_ordered; constructor).
  rewrite keys_reduce_entry, keys_merge, corpus_pairs_words.
  simpl. intuition.
Qed.

(** ** The final aggregate of a complete run *)

(** X10.  The counts of the final aggregate add up to the number of
    tokens of the corpus: every token is counted once under exactly
    one word. *)
Theorem totals_add_up (input_data : list string) (hc : Z) (sched : list nat)
  (fr : fmap) :
  size input_data <= INT_MAX ->
  1 <= hc <= INT_MAX ->
  Z.of_nat (List.length (Spec.words input_data)) <= INT_MAX ->
  final_result input_data hc sched = Some fr ->
  zsum (List.map snd fr) = Z.of_nat (List.length (Spec.words input_data)).
Proof.
  intros Hs Hh B F.
  rewrite (final_result_run input_data hc Hs Hh sched fr F).
  rewrite reduce_phase_map by (apply merge_all_ordered; constructor).
  assert (E : stored (merge_all (flat_map map_function input_data) StdMap.empty)
              = List.length (Spec.words input_data)).
  { rewrite stored_merge. unfold stored. simpl.
    rewrite <- corpus_pairs_words, length_map. lia. }
  rewrite reduce_entries_sum.
  - now rewrite E.
  - apply all_ones_merge; [apply corpus_pairs_ones | constructor].
  - now rewrite E.
Qed.

Lemma totals_add_up_witness :
  zsum (List.map snd [(EmptyString, 1); ("a", 2); ("b", 2)])
  = Z.of_nat (List.length (Spec.words small_input)).
Proof.
  refine (totals_add_up small_input 2 small_sched _ _ _ _ eq_refl).
  - vm_compute. discriminate.
  - unfold INT_MAX. lia.
  - vm_compute. discriminate.
Defined.

(** X11.  The keys of the final aggregate are exactly the words that
    occur in the corpus, whatever their number. *)
Theorem keys_are_words (input_data : list string) (hc : Z) (sched : list nat)
  (fr : fmap) (w : string) :
  size input_data <= INT_MAX ->
  1 <= hc <= INT_MAX ->
  final_result input_data hc sched = Some fr ->
  (In w (StdMap.keys fr) <-> In w (Spec.words input_data)).
Proof.
  intros Hs Hh F.
  rewrite (final_result_run input_data hc Hs Hh sched fr F).
  apply final_keys.
Qed.

Lemma keys_are_words_witness :
  In "b" (StdMap.keys [(EmptyString, 1); ("a", 2); ("b", 2)])
  <-> In "b" (Spec.words small_input).
Proof.
  refine (keys_are_words small_input 2 small_sched _ "b" _ _ eq_refl).
  - vm_compute. discriminate.
  - unfold INT_MAX. lia.
Defined.

(** ** The lines of the report *)

Lemma count_char_app (c : ascii) (a b : string) :
  count_char c (a ++ b) = (count_char c a + count_char c b)%nat.
Proof.
  induction a as [|d a IH]; simpl; [reflexivity|]. rewrite IH. lia.
Qed.

Lemma digits_no_newline (d : Decimal.uint) :
  count_char newline (NilEmpty.string_of_uint d) = O.
Proof. induction d; simpl; assumption || reflexivity. Qed.

Lemma show_int_no_newline (z : Z) : count_char newline (show_int z) = O.
Proof.
  unfold show_int, NilZero.string_of_int, NilZero.string_of_uint.
  destruct (Z.to_int z) as [d|d]; destruct d; simpl;
    try reflexivity; apply digits_no_newline.
Qed.

Lemma clean_no_newline (w : string) :
  all_chars clean_char w = true -> count_char newline w = O.
Proof.
  induction w as [|c w IH]; [reflexivity|].
  cbn [count_char all_chars].
  intros H. apply andb_prop in H. destruct H as [H1 H2].
  rewrite IH by assumption.
  destruct (Ascii.eqb newline c) eqn:E; [|reflexivity].
  apply Ascii.eqb_eq in E. subst c. discriminate H1.
Qed.

Lemma print_entry_newlines (e : string * Z) :
  count_char newline (print_entry e) = S (count_char newline (fst e)).
Proof.
  unfold print_entry. rewrite !count_char_app, show_int_no_newline.
  simpl. lia.
Qed.

Lemma concat_newlines (ls : list string) :
  count_char newline (String.concat EmptyString ls)
  = list_sum (List.map (count_char newline) ls).
Proof.
  induction ls as [|x ls IH]; [reflexivity|].
  destruct ls as [|y ls].
  - simpl. lia.
  - change (String.concat EmptyString (x :: y :: ls))
      with (x ++ EmptyString ++ String.concat EmptyString (y :: ls))%string.
    rewrite !count_char_app, IH. simpl. lia.
Qed.

Lemma report_newlines (fr : fmap) :
  Forall (fun w => count_char newline w = O) (StdMap.keys fr) ->
  count_char newline (report fr) = List.length fr.
Proof.
  unfold report. rewrite concat_newlines. unfold StdMap.keys.
  induction fr as [|e fr IH]; simpl; intros H; [reflexivity|].
  inversion H as [|? ? He Hfr]; subst.
  rewrite print_entry_newlines, He, IH by assumption. reflexivity.
Qed.

(** X12.  The report of a complete run has exactly one line for each
    distinct word of the corpus: it holds as many line ends as there
    are distinct words. *)
Theorem report_line_count (input_data : list string) (hc : Z) (sched : list nat)
  (out : exit) :
  size input_data <= INT_MAX ->
  1 <= hc <= INT_MAX ->
  main input_data hc sched = Some out ->
  count_char newline (stdout out)
  = List.length (nodup string_dec (Spec.words input_data)).
Proof.
  intros Hs Hh M. unfold main in M.
  destruct (final_result input_data hc sched) as [fr|] eqn:F; [|discriminate].
  inversion M; subst out; clear M. simpl.
  rewrite (final_result_run input_data hc Hs Hh sched fr F) in *.
  set (final := reduce_phase _).
  assert (K : forall w, In w (StdMap.keys final) <-> In w (Spec.words input_data))
    by (intros w; apply final_keys).
  rewrite report_newlines.
  - replace (List.length final) with (List.length (StdMap.keys final))
      by (unfold StdMap.keys; apply length_map).
    apply Permutation_length. apply NoDup_Permutation.
    + apply sorted_nodup. apply final_ordered, merge_all_ordered. constructor.
    + apply NoDup_nodup.
    + intros w. rewrite nodup_In. apply K.
  - apply Forall_forall. intros w Hw. apply clean_no_newline.
    apply (words_clean input_data). now apply K.
Qed.

Lemma report_line_count_witness :
  count_char newline
    (String.concat EmptyString [": 1" ++ endl; "a: 2" ++ endl; "b: 2" ++ endl])
  = List.length (nodup string_dec (Spec.words small_input)).
Proof.
  refine (report_line_count small_input 2 small_sched
            (mkExit (String.concat EmptyString
                       [": 1" ++ endl; "a: 2" ++ endl; "b: 2" ++ endl]) 0)
            _ _ eq_refl).
  - vm_compute. discriminate.
  - unfold INT_MAX. lia.
Defined.

(** ** [map_worker] on a range inside the vector *)

Lemma worker_loop_merge (input_data : list string) (n : nat) :
  forall i e m,
    size input_data <= INT_MAX -> 0 <= i -> e <= size input_data ->
    e = i + Z.of_nat n ->
    worker_loop input_data n i e m
    = Returns (merge_all (flat_map map_function (records_between input_data i e)) m).
Proof.
  induction n as [|n IH]; intros i e m Hs Hlo Hhi He.
  - simpl. now rewrite records_between_nil by lia.
  - simpl. destruct (Z.ltb_spec i e) as [_|F]; [|lia].
    destruct (vector_at_in_range input_data i) as (s & -> & N);
      [lia | unfold INT_MAX in *; lia |].
    rewrite to_int_id by (unfold is_int, INT_MIN, INT_MAX in *; lia).
    rewrite IH by lia.
    rewrite (records_between_cons input_data i e s) by (auto; lia).
    simpl. now rewrite merge_all_app.
Qed.

Lemma map_worker_merge (input_data : list string) (m : imap) (start end_ : Z) :
  size input_data <= INT_MAX -> 0 <= start -> end_ <= size input_data ->
  map_worker input_data m start end_
  = Returns (merge_all
               (flat_map map_function (records_between input_data start end_)) m).
Proof.
  intros Hs H0 H1. unfold map_worker.
  destruct (Z_le_gt_dec start end_).
  - apply worker_loop_merge; lia.
  - replace (Z.to_nat (end_ - start)) with O by lia.
    simpl. now rewrite records_between_nil by lia.
Qed.

(** X13.  On a range inside the vector [map_worker] returns the map it
    was given with the pairs of the records of the range pushed, record
    after record and word after word; on an empty range that is the
    map it was given. *)
Theorem map_worker_pushes (input_data : list string) (m : imap) (start end_ : Z) :
  size input_data <= INT_MAX ->
  0 <= start -> end_ <= size input_data ->
  map_worker input_data m start end_
  = Returns (merge_all
               (flat_map map_function (records_between input_data start end_)) m).
Proof. apply map_worker_merge. Qed.

Lemma map_worker_pushes_witness :
  map_worker sample_input StdMap.empty 1 3
  = Returns (merge_all
               (map_function "This is sentence two."
                ++ map_function "This is a sentence that ends with red.")
               StdMap.empty).
Proof.
  refine (map_worker_pushes sample_input StdMap.empty 1 3 _ _ _).
  - vm_compute. discriminate.
  - lia.
  - vm_compute. discriminate.
Defined.

(** X14.  Two calls of [map_worker] on adjacent ranges, the second on
    the map the first returns, do what one call on the joined range
    does. *)
Theorem map_worker_compose (input_data : list string) (m m1 m2 : imap)
  (a b c : Z) :
  size input_data <= INT_MAX ->
  0 <= a <= b -> b <= c <= size input_data ->
  map_worker input_data m a b = Returns m1 ->
  map_worker input_data m1 b c = Returns m2 ->
  map_worker input_data m a c = Returns m2.
Proof.
  intros Hs Hab Hbc R1 R2.
  rewrite map_worker_merge in R1, R2 |- * by lia.
  inversion R1; subst m1. inversion R2; subst m2.
  now rewrite <- merge_all_app, <- flat_map_app, records_between_app by lia.
Qed.

Lemma map_worker_compose_witness :
  map_worker sample_input StdMap.empty 0 4
  = map_worker sample_input
      (merge_all (flat_map map_function (records_between sample_input 0 1))
         StdMap.empty) 1 4.
Proof.
  assert (Hs : size sample_input <= INT_MAX) by (vm_compute; discriminate).
  assert (H1 : 0 <= 0 <= 1) by lia.
  assert (H2 : 1 <= 4 <= size sample_input) by (vm_compute; split; discriminate).
  destruct (map_worker sample_input
              (merge_all (flat_map map_function (records_between sample_input 0 1))
                 StdMap.empty) 1 4) as [m2| |] eqn:E; try discriminate E.
  exact (map_worker_compose sample_input StdMap.empty _ m2 0 1 4 Hs H1 H2 eq_refl E).
Defined.

(** ** Runs of [main] *)

(** X15.  The final aggregate of a complete run, with any number of
    threads and under any schedule, is the one a single call of
    [map_worker] on the whole vector followed by the reduce phase
    builds. *)
Theorem parallel_is_sequential (input_data : list string) (hc : Z)
  (sched : list nat) (fr : fmap) :
  size input_data <= INT_MAX ->
  1 <= hc <= INT_MAX ->
  final_result input_data hc sched = Some fr ->
  exists m,
    map_worker input_data StdMap.empty 0 (size input_data) = Returns m /\
    fr = reduce_phase m.
Proof.
  intros Hs Hh F.
  exists (merge_all (flat_map map_function input_data) StdMap.empty). split.
  - rewrite map_worker_merge by lia. now rewrite records_between_all.
  - now apply (final_result_run input_data hc Hs Hh sched).
Qed.

Lemma parallel_is_sequential_witness :
  exists m,
    map_worker small_input StdMap.empty 0 (size small_input) = Returns m /\
    [(EmptyString, 1); ("a", 2); ("b", 2)] = reduce_phase m.
Proof.
  refine (parallel_is_sequential small_input 2 small_sched _ _ _ eq_refl).
  - vm_compute. discriminate.
  - unfold INT_MAX. lia.
Defined.

(** X16.  No run gets stuck: whatever steps the threads have taken,
    some further steps bring every thread to its end, and [main] to
    its final aggregate. *)
Theorem partial_run_completes (input_data : list string) (hc : Z)
  (sched : list nat) (st : state) :
  size input_data <= INT_MAX ->
  1 <= hc <= INT_MAX ->
  run input_data sched (initial input_data hc) = Some st ->
  exists sched' fr, final_result input_data hc (sched ++ sched') = Some fr.
Proof.
  intros Hs Hh R.
  pose proof (run_preserves input_data Hs _ sched _ _
                (initial_inv input_data hc Hs Hh) R) as I.
  destruct (run_to_completion input_data Hs _ _ st I (le_n _))
    as (sched' & [ths m] & R' & F).
  exists sched', (reduce_phase m). unfold final_result.
  rewrite run_app, R, R'. simpl in F. now rewrite F.
Qed.

Lemma partial_run_completes_witness :
  exists sched' fr, final_result small_input 2 ([1; 0]%nat ++ sched') = Some fr.
Proof.
  refine (partial_run_completes small_input 2 [1; 0]%nat
            ([mkThread 1 1 (map_function "b a"); mkThread 2 2 (map_function "a - B.")],
             StdMap.empty) _ _ eq_refl).
  - vm_compute. discriminate.
  - unfold INT_MAX. lia.
Defined.

Lemma schedule_independence_witness :
  final_result small_input 2 small_sched
  = final_result small_input 2 [0; 0; 0; 1; 1; 1; 1]%nat.
Proof.
  assert (Hs : size small_input <= INT_MAX) by (vm_compute; discriminate).
  assert (Hh : 1 <= 2 <= INT_MAX) by (unfold INT_MAX; lia).
  destruct (final_result small_input 2 small_sched) as [fr1|] eqn:E1;
    [|discriminate E1].
  destruct (final_result small_input 2 [0; 0; 0; 1; 1; 1; 1]%nat) as [fr2|] eqn:E2;
    [|discriminate E2].
  f_equal.
  exact (schedule_independence small_input 2 small_sched
           [0; 0; 0; 1; 1; 1; 1]%nat fr1 fr2 Hs Hh E1 E2).
Defined.

Lemma main_in_range_witness :
  Forall (fun th => thread_step small_input th StdMap.empty <> Crashed)
    [mkThread 1 1 (map_function "b a"); mkThread 2 2 (map_function "a - B.")].
Proof.
  refine (main_in_range small_input 2 [1; 0]%nat _ _ _ _ eq_refl).
  - vm_compute. discriminate.
  - unfold INT_MAX. lia.
Defined.

Lemma map_worker_thread_witness :
  exists sched,
    run sample_input sched ([mkThread 1 3 []], StdMap.empty)
    = Some ([mkThread 3 3 []],
            merge_all
              (map_function "This is sentence two."
               ++ map_function "This is a sentence that ends with red.")
              StdMap.empty).
Proof.
  refine (map_worker_thread sample_input StdMap.empty _ 1 3 _ _ _ eq_refl).
  - unfold is_int, INT_MIN, INT_MAX. lia.
  - unfold is_int, INT_MIN, INT_MAX. lia.
  - lia.
Defined.

(** ** More records than an [int] can count *)

(** X20.  With a single thread and a vector of more than [INT_MAX]
    (and fewer than [2^32]) records, the [unsigned long] end of the
    range does not fit the [int] parameter of [map_worker]: the worker
    receives a negative end, its loop test fails at once, and it ends
    without having read a record. *)
Theorem narrowed_end_skips (sz : Z) :
  INT_MAX < sz < 2 ^ 32 ->
  range_of sz 1 0 = (0, sz) /\
  spawn (range_of sz 1 0) = mkThread 0 (sz - 2 ^ 32) [] /\
  finished (spawn (range_of sz 1 0)) = true.
Proof.
  unfold INT_MAX. intros H.
  assert (R : range_of sz 1 0 = (0, sz)).
  { unfold range_of, range_start, range_end. simpl.
    unfold to_ulong. rewrite Z.mod_0_l by lia. reflexivity. }
  assert (T : to_int sz = sz - 2 ^ 32).
  { unfold to_int.
    replace (sz + 2 ^ 31) with (sz - 2 ^ 31 + 1 * 2 ^ 32) by lia.
    rewrite Z.mod_add by lia. rewrite Z.mod_small by lia. lia. }
  rewrite R. unfold spawn, finished. simpl fst. simpl snd.
  rewrite T. change (to_int 0) with 0. cbn [th_pending th_i th_end].
  repeat split.
  destruct (Z.ltb_spec 0 (sz - 2 ^ 32)); [lia | reflexivity].
Qed.

Lemma narrowed_end_skips_witness :
  finished (spawn (range_of (2 ^ 31) 1 0)) = true.
Proof.
  assert (H : INT_MAX < 2 ^ 31 < 2 ^ 32) by (unfold INT_MAX; lia).
  exact (proj2 (proj2 (narrowed_end_skips (2 ^ 31) H))).
Defined.

(** ** The empty corpus *)

(** X21.  On an empty corpus, with any number of threads from 1 up,
    every thread is handed the empty range and ends without a step;
    [main] prints nothing and returns 0. *)
Theorem empty_corpus (hc : Z) :
  1 <= hc <= INT_MAX ->
  Forall (fun th => th = mkThread 0 0 []) (map_threads [] hc) /\
  main [] hc [] = Some (mkExit EmptyString 0).
Proof.
  intros Hh.
  assert (Hs : size (@nil string) <= INT_MAX) by (vm_compute; discriminate).
  assert (A : Forall (fun th => th = mkThread 0 0 []) (map_threads [] hc)).
  { pose proof (initial_wf [] hc Hs Hh) as W.
    rewrite Forall_forall in *. intros th Hth.
    specialize (W th Hth). unfold wf_thread in W. change (size []) with 0 in W.
    unfold map_threads in Hth. apply in_map_iff in Hth.
    destruct Hth as (r & <- & _). unfold spawn in *. simpl in *.
    f_equal; lia. }
  split; [exact A|].
  assert (F : forallb finished (map_threads [] hc) = true).
  { apply forallb_forall. rewrite Forall_forall in A.
    intros th Hth. now rewrite (A th Hth). }
  unfold main, final_result, initial. cbn [run]. rewrite F. reflexivity.
Qed.

Lemma empty_corpus_witness : main [] 3 [] = Some (mkExit EmptyString 0).
Proof.
  assert (H : 1 <= 3 <= INT_MAX) by (unfold INT_MAX; lia).
  exact (proj2 (empty_corpus 3 H)).
Defined.
